(** * The expression parser of [compilador.py]

    A shallow embedding of the parser path of [src/compilador.py]
    (lines 96-142): the regular expression [TOKEN_RE], the class [Lexer]
    and the recursive-descent parser [parse_expression] with its three
    closures [E], [T] and [F].

    Texts are Rocq strings: sequences of 8-bit characters, read as the
    code points 0..255 of a Python [str].  On that range the classes of
    Python's [re] are: [\d] = '0'..'9'; [\s] = code points 9..13, 28..32,
    133 and 160; [.] = every character but the line feed. *)

From Stdlib Require Import Bool Arith ZArith Lia List String Ascii.
Import ListNotations.

Local Open Scope list_scope.
Local Open Scope string_scope.
Local Open Scope nat_scope.

(** ** Outcomes

    A Python call returns a value or raises.  [OutOfFuel] belongs to the
    embedding only: the mutually recursive closures are defined by recursion
    on a step budget, and the budget is shown below never to run out. *)

(** A token is the pair [(kind, text)] the lexer appends. *)
Definition token : Type := string * string.

(** The three messages of the parser's SyntaxError; the second one shows
    the offending token. *)
Inductive message :=
| Faltando_paren                 (* "Faltando ')'" *)
| Token_inesperado (tok : token) (* f"Token inesperado: {tok}" *)
| Entrada_extra.                 (* "Entrada extra." *)

Inductive exn :=
| SyntaxError (msg : message)
| TypeError                      (* what [None in "+-*/()"] would raise *)
| RecursionError.                (* a call beyond the recursion limit *)

Inductive result (A : Type) :=
| Ok (a : A)
| Raise (e : exn)
| OutOfFuel.

Arguments Ok {A} a.
Arguments Raise {A} e.
Arguments OutOfFuel {A}.

Definition bind {A B : Type} (m : result A) (k : A -> result B) : result B :=
  match m with
  | Ok a => k a
  | Raise e => Raise e
  | OutOfFuel => OutOfFuel
  end.

Notation "x <- m ;; k" := (bind m (fun x => k))
  (at level 61, m at next level, right associativity).
Notation "' p <- m ;; k" := (bind m (fun p => k))
  (at level 61, p pattern, m at next level, right associativity).

(** ** Character classes of [TOKEN_RE] *)

Definition code (c : ascii) : nat := nat_of_ascii c.

Definition between (lo hi : nat) (c : ascii) : bool :=
  (lo <=? code c) && (code c <=? hi).

(** [\s] *)
Definition is_space (c : ascii) : bool :=
  between 9 13 c || between 28 32 c || (code c =? 133) || (code c =? 160).

(** [\d] *)
Definition is_digit (c : ascii) : bool := between 48 57 c.

(** [[A-Za-z_]] *)
Definition is_ident_start (c : ascii) : bool :=
  between 65 90 c || between 97 122 c || (code c =? 95).

(** [[A-Za-z0-9_]] *)
Definition is_ident_char (c : ascii) : bool :=
  is_ident_start c || is_digit c.

(** [.] (no DOTALL flag): anything but the line feed *)
Definition is_dot (c : ascii) : bool := negb (code c =? 10).

(** ** Matching [TOKEN_RE] at the start of a string

    The pattern is white space [\s*] followed by one of three capturing
    alternatives, tried in this order: a number [\d+(?:\.\d+)?], an
    identifier (a letter or underscore, then letters, digits, underscores),
    or any one character [.].

    A match is the triple of its groups (a group that did not take part is
    [None]) and the text left after the match. *)

Definition groups : Type := option string * option string * option string.

(** The longest prefix whose characters satisfy [p], and what follows it:
    a greedy [p*] with nothing after it that could make it back off. *)
Fixpoint span (p : ascii -> bool) (s : string) : string * string :=
  match s with
  | String c s' =>
      if p c then let (a, b) := span p s' in (String c a, b)
      else ("", s)
  | EmptyString => ("", "")
  end.

(** [\d+(?:\.\d+)?] *)
Definition re_number (s : string) : option (string * string) :=
  match span is_digit s with
  | (EmptyString, _) => None
  | (int, rest) =>
      match rest with
      | String c rest1 =>
          if (c =? ".")%char then
            match span is_digit rest1 with
            | (EmptyString, _) => Some (int, rest)
            | (frac, rest2) => Some (int ++ "." ++ frac, rest2)
            end
          else Some (int, rest)
      | EmptyString => Some (int, rest)
      end
  end.

(** [[A-Za-z_][A-Za-z0-9_]*] *)
Definition re_ident (s : string) : option (string * string) :=
  match s with
  | String c s' =>
      if is_ident_start c
      then let (tl, rest) := span is_ident_char s' in Some (String c tl, rest)
      else None
  | EmptyString => None
  end.

(** [.] *)
Definition re_any (s : string) : option (string * string) :=
  match s with
  | String c s' => if is_dot c then Some (String c "", s') else None
  | EmptyString => None
  end.

(** The alternation: the first alternative that matches wins. *)
Definition re_alternatives (s : string) : option (groups * string) :=
  match re_number s with
  | Some (num, rest) => Some ((Some num, None, None), rest)
  | None =>
      match re_ident s with
      | Some (ident, rest) => Some ((None, Some ident, None), rest)
      | None =>
          match re_any s with
          | Some (other, rest) => Some ((None, None, Some other), rest)
          | None => None
          end
      end
  end.

(** The whole pattern.  [\s*] is greedy and backtracks: it first takes one
    more white-space character and tries the rest of the pattern after it;
    only when that fails does it stop where it is. *)
Fixpoint TOKEN_RE_match (s : string) : option (groups * string) :=
  match s with
  | String c s' =>
      if is_space c then
        match TOKEN_RE_match s' with
        | Some m => Some m
        | None => re_alternatives s
        end
      else re_alternatives s
  | EmptyString => re_alternatives s
  end.

(** [TOKEN_RE.finditer(text)]: the matches from left to right.  A search
    starts where the previous match ended; where no match starts, the search
    moves one character on.  [skip] counts the characters of the current
    position that the previous match covers. *)
Fixpoint finditer_from (skip : nat) (s : string) : list groups :=
  match s with
  | EmptyString => []
  | String _ s' =>
      match skip with
      | S k => finditer_from k s'
      | O =>
          match TOKEN_RE_match s with
          | Some (g, rest) =>
              g :: finditer_from (String.length s' - String.length rest) s'
          | None => finditer_from 0 s'
          end
      end
  end.

Definition finditer (text : string) : list groups := finditer_from 0 text.

(** ** class Lexer *)

Record Lexer := mkLexer { tokens : list token; pos : nat }.

(** Truth value of a group: [None] and the empty string are false. *)
Definition truthy (g : option string) : bool :=
  match g with
  | Some (String _ _) => true
  | _ => false
  end.

Definition group_text (g : option string) : string :=
  match g with
  | Some s => s
  | None => ""
  end.

(** [needle in hay] on strings: [needle] occurs in [hay] as a substring. *)
Fixpoint str_in (needle hay : string) : bool :=
  prefix needle hay ||
  match hay with
  | String _ hay' => str_in needle hay'
  | EmptyString => false
  end.

(** One turn of the [for] loop of [__init__]. *)
Definition Lexer_step (toks : list token) (mo : groups)
  : result (list token) :=
  let '(num, ident, other) := mo in
  if truthy num then Ok (toks ++ [("NUMBER", group_text num)])%list
  else if truthy ident then Ok (toks ++ [("ID", group_text ident)])%list
  else
    match other with
    | None => Raise TypeError
    | Some o =>
        if str_in o "+-*/()" then Ok (toks ++ [(o, o)])%list else Ok toks
    end.

Fixpoint Lexer_loop (toks : list token) (mos : list groups)
  : result (list token) :=
  match mos with
  | [] => Ok toks
  | mo :: mos' => toks' <- Lexer_step toks mo ;; Lexer_loop toks' mos'
  end.

(** [Lexer.__init__] *)
Definition Lexer_init (text : string) : result Lexer :=
  toks <- Lexer_loop [] (finditer text) ;;
  Ok {| tokens := toks; pos := 0 |}.

(** [Lexer.peek] *)
Definition peek (lex : Lexer) : token :=
  if pos lex <? List.length (tokens lex)
  then nth (pos lex) (tokens lex) ("EOF", "")
  else ("EOF", "").

(** [Lexer.next] *)
Definition next (lex : Lexer) : token * Lexer :=
  (peek lex, {| tokens := tokens lex; pos := pos lex + 1 |}).

(** ** The syntax tree

    The parser builds Python tuples: [("NUMBER", text)] and [("ID", text)]
    for the leaves, [("BINOP", op, left, right)] for the inner nodes. *)

Inductive tree :=
| Leaf (kind text : string)
| BINOP (op : string) (left right : tree).

(** [k in (k1, ..., kn)] on a tuple of strings *)
Definition kind_in (k : string) (ks : list string) : bool :=
  existsb (String.eqb k) ks.

(** ** The closures [E], [T] and [F] of [parse_expression]

    The closures share the variable [lex]; each of them is a function from
    the state of that object to an outcome and the new state.  The two
    [while] loops are the functions [E_while] and [T_while], whose argument
    [node] is the loop's variable.  Every call and every turn of a loop
    spends one unit of [fuel]. *)

Fixpoint E (fuel : nat) (lex : Lexer) : result (tree * Lexer) :=
  match fuel with
  | O => OutOfFuel
  | S fuel =>
      '(node, lex) <- T fuel lex ;;
      E_while fuel node lex
  end

with E_while (fuel : nat) (node : tree) (lex : Lexer) : result (tree * Lexer) :=
  match fuel with
  | O => OutOfFuel
  | S fuel =>
      if kind_in (fst (peek lex)) ["+"; "-"] then
        let (tok, lex) := next lex in
        let op := fst tok in
        '(rhs, lex) <- T fuel lex ;;
        E_while fuel (BINOP op node rhs) lex
      else Ok (node, lex)
  end

with T (fuel : nat) (lex : Lexer) : result (tree * Lexer) :=
  match fuel with
  | O => OutOfFuel
  | S fuel =>
      '(node, lex) <- F fuel lex ;;
      T_while fuel node lex
  end

with T_while (fuel : nat) (node : tree) (lex : Lexer) : result (tree * Lexer) :=
  match fuel with
  | O => OutOfFuel
  | S fuel =>
      if kind_in (fst (peek lex)) ["*"; "/"] then
        let (tok, lex) := next lex in
        let op := fst tok in
        '(rhs, lex) <- F fuel lex ;;
        T_while fuel (BINOP op node rhs) lex
      else Ok (node, lex)
  end

with F (fuel : nat) (lex : Lexer) : result (tree * Lexer) :=
  match fuel with
  | O => OutOfFuel
  | S fuel =>
      let tok := peek lex in
      if (fst tok =? "(")%string then
        let (_, lex) := next lex in
        '(node, lex) <- E fuel lex ;;
        if negb (fst (peek lex) =? ")")%string
        then Raise (SyntaxError Faltando_paren)
        else let (_, lex) := next lex in Ok (node, lex)
      else if (fst tok =? "NUMBER")%string then
        let (tok', lex) := next lex in Ok (Leaf "NUMBER" (snd tok'), lex)
      else if (fst tok =? "ID")%string then
        let (tok', lex) := next lex in Ok (Leaf "ID" (snd tok'), lex)
      else Raise (SyntaxError (Token_inesperado tok))
  end.

(** Tokens not yet consumed. *)
Definition remaining (lex : Lexer) : nat := List.length (tokens lex) - pos lex.

(** A budget that the parse of [lex] cannot use up (see [E_fuel_enough]). *)
Definition fuel_for (lex : Lexer) : nat := 3 * remaining lex + 3.

(** [parse_expression] *)
Definition parse_expression (text : string) : result tree :=
  lex <- Lexer_init text ;;
  '(tree, lex) <- E (fuel_for lex) lex ;;
  if negb (fst (peek lex) =? "EOF")%string
  then Raise (SyntaxError Entrada_extra)
  else Ok tree.


(** ** Budget-free readings of the closures

    Each closure run with a budget that is large enough for the tokens that
    remain.  The lemmas [parseE_eq] ... [parseF_eq] below show that these
    functions satisfy the equations of the source text. *)

Definition parseF (lex : Lexer) := F (3 * remaining lex + 1) lex.
Definition parseT_while (node : tree) (lex : Lexer) :=
  T_while (3 * remaining lex + 1) node lex.
Definition parseT (lex : Lexer) := T (3 * remaining lex + 2) lex.
Definition parseE_while (node : tree) (lex : Lexer) :=
  E_while (3 * remaining lex + 2) node lex.
Definition parseE (lex : Lexer) := E (3 * remaining lex + 3) lex.

(** The five recursive functions, each with the constant of its budget and
    with the budget as its first argument. *)
Inductive closure : nat -> (nat -> Lexer -> result (tree * Lexer)) -> Prop :=
| closure_E : closure 3 E
| closure_E_while node : closure 2 (fun fuel => E_while fuel node)
| closure_T : closure 2 T
| closure_T_while node : closure 1 (fun fuel => T_while fuel node)
| closure_F : closure 1 F.

(** The cursor only moves forward, over a token list that stays as it is. *)
Definition cursor_ok (lex : Lexer) (r : result (tree * Lexer)) : Prop :=
  match r with
  | Ok (_, lex') => tokens lex' = tokens lex /\ pos lex <= pos lex'
  | _ => True
  end.

(** The parser on a token list given directly: [parse_expression] after
    the construction of the lexer (see [parse_expression_tokens]). *)
Definition parse_tokens (toks : list token) : result tree :=
  '(tree, lex') <- parseE {| tokens := toks; pos := 0 |} ;;
  if negb (fst (peek lex') =? "EOF")%string
  then Raise (SyntaxError Entrada_extra)
  else Ok tree.

(** Operand tokens and the leaf [F] makes of one. *)
Definition is_operand (tok : token) : bool :=
  kind_in (fst tok) ["NUMBER"; "ID"].

Definition leaf (tok : token) : tree := Leaf (fst tok) (snd tok).

(** The operator token of kind [op]. *)
Definition op_token (op : string) : token := (op, op).

(** ** The calls made during a parse

    A [call] is one activation of a closure, or one arrival at the head of a
    [while] loop, together with the state of [lex] at that moment.
    [subcalls c] lists, in order, what the body of [c] starts itself: a later
    entry is only started when the earlier ones have returned. *)

Inductive call :=
| CallE (lex : Lexer)
| CallE_while (node : tree) (lex : Lexer)
| CallT (lex : Lexer)
| CallT_while (node : tree) (lex : Lexer)
| CallF (lex : Lexer).

Definition run (c : call) : result (tree * Lexer) :=
  match c with
  | CallE lex => parseE lex
  | CallE_while node lex => parseE_while node lex
  | CallT lex => parseT lex
  | CallT_while node lex => parseT_while node lex
  | CallF lex => parseF lex
  end.

Definition after (m : result (tree * Lexer)) (k : tree -> Lexer -> call)
  : list call :=
  match m with
  | Ok (node, lex) => [k node lex]
  | _ => []
  end.

Definition subcalls (c : call) : list call :=
  match c with
  | CallE lex => CallT lex :: after (parseT lex) CallE_while
  | CallE_while node lex =>
      if kind_in (fst (peek lex)) ["+"; "-"] then
        let (tok, lex1) := next lex in
        CallT lex1 ::
        after (parseT lex1) (fun rhs => CallE_while (BINOP (fst tok) node rhs))
      else []
  | CallT lex => CallF lex :: after (parseF lex) CallT_while
  | CallT_while node lex =>
      if kind_in (fst (peek lex)) ["*"; "/"] then
        let (tok, lex1) := next lex in
        CallF lex1 ::
        after (parseF lex1) (fun rhs => CallT_while (BINOP (fst tok) node rhs))
      else []
  | CallF lex =>
      if (fst (peek lex) =? "(")%string then [CallE (snd (next lex))] else []
  end.

Inductive reaches : call -> call -> Prop :=
| reaches_here c : reaches c c
| reaches_sub c c1 c2 : In c1 (subcalls c) -> reaches c1 c2 -> reaches c c2.

(** [lex] is the state in which the parse of [text] calls [F]: a factor
    position of the input. *)
Definition factor_position (text : string) (lex : Lexer) : Prop :=
  exists lex0, Lexer_init text = Ok lex0 /\ reaches (CallE lex0) (CallF lex).

(** The turns of a [while] loop that starts in state [lex]: the operator and
    the right operand of each turn, and the state in which the loop ends. *)
Inductive turns (ops : list string) (operand : Lexer -> result (tree * Lexer))
  : Lexer -> list (string * tree) -> Lexer -> Prop :=
| turns_stop lex :
    kind_in (fst (peek lex)) ops = false -> turns ops operand lex [] lex
| turns_go lex rhs lex2 rest lex3 :
    kind_in (fst (peek lex)) ops = true ->
    operand (snd (next lex)) = Ok (rhs, lex2) ->
    turns ops operand lex2 rest lex3 ->
    turns ops operand lex ((fst (peek lex), rhs) :: rest) lex3.

(** The tree a loop builds from its first operand and its turns. *)
Definition fold_turns (node : tree) (ts : list (string * tree)) : tree :=
  fold_left (fun acc t => BINOP (fst t) acc (snd t)) ts node.

(** ** Vocabulary for the statements about the lexer *)

(** [rest] is what is left of [s] after a non-empty prefix. *)
Definition proper_suffix (rest s : string) : Prop :=
  exists pre, pre <> "" /\ s = pre ++ rest.

(** The token sequence of a text. *)
Definition Lexer_tokens (text : string) : list token :=
  match Lexer_init text with
  | Ok lex => tokens lex
  | _ => []
  end.

(** What one match adds to the token sequence. *)
Definition match_tokens (mo : groups) : list token :=
  match Lexer_step [] mo with
  | Ok toks => toks
  | _ => []
  end.

(** A string that the number pattern (the identifier pattern) matches from
    its first to its last character. *)
Definition is_number_text (s : string) : bool :=
  match re_number s with
  | Some (_, EmptyString) => true
  | _ => false
  end.

Definition is_ident_text (s : string) : bool :=
  match re_ident s with
  | Some (_, EmptyString) => true
  | _ => false
  end.

(** The shape of a match: one group took part, with a text of its pattern. *)
Definition groups_ok (mo : groups) : bool :=
  match mo with
  | (Some num, None, None) => is_number_text num
  | (None, Some ident, None) => is_ident_text ident
  | (None, None, Some (String _ EmptyString)) => true
  | _ => false
  end.

Definition token_ok (tok : token) : bool :=
  let (kind, text) := tok in
  ((kind =? "NUMBER")%string && is_number_text text) ||
  ((kind =? "ID")%string && is_ident_text text) ||
  (kind_in kind ["+"; "-"; "*"; "/"; "("; ")"] && (text =? kind)%string).

Fixpoint string_forallb (p : ascii -> bool) (s : string) : bool :=
  match s with
  | String c s' => p c && string_forallb p s'
  | EmptyString => true
  end.

Fixpoint string_map (f : ascii -> ascii) (s : string) : string :=
  match s with
  | String c s' => String (f c) (string_map f s')
  | EmptyString => EmptyString
  end.

Fixpoint string_filter (p : ascii -> bool) (s : string) : string :=
  match s with
  | String c s' =>
      if p c then String c (string_filter p s') else string_filter p s'
  | EmptyString => EmptyString
  end.

(** A string of white space only. *)
Definition all_space (s : string) : bool := string_forallb is_space s.

(** One of the six characters [+ - * / ( )]. *)
Definition is_operator (c : ascii) : bool := str_in (String c "") "+-*/()".

(** A character that can neither stand in a lexeme nor make a token: not a
    digit, a letter, an underscore, a full stop or an operator. *)
Definition is_silent (c : ascii) : bool :=
  negb (is_digit c) && negb (is_ident_char c) && negb (c =? ".")%char &&
  negb (is_operator c).

(** A digit, an ASCII letter, an underscore, white space or an operator. *)
Definition is_recognized (c : ascii) : bool :=
  is_digit c || is_ident_start c || is_space c || is_operator c.

(** The text without its unrecognized characters. *)
Definition erase_unrecognized (text : string) : string :=
  string_filter is_recognized text.

(** The text with a space in the place of every unrecognized character other
    than the full stop. *)
Definition blank_unrecognized (text : string) : string :=
  string_map
    (fun c => if is_recognized c || (c =? ".")%char then c else " "%char)
    text.

(** * The rest of [compilador.py]

    The tokenizer [tokenize] with its master pattern, the automaton
    [simulate_dfa] and the printer [pretty_tree]. *)

(** ** [TOKEN_SPEC] and [MASTER_RE] *)

Definition KEYWORDS : list string :=
  ["if"; "else"; "while"; "return"; "int"; "float"; "for"; "break";
   "continue"].

Fixpoint string_drop (n : nat) (s : string) : string :=
  match n, s with
  | S n', String _ s' => string_drop n' s'
  | _, _ => s
  end.

(** A pattern that is one literal text. *)
Definition re_literal (lit s : string) : option (string * string) :=
  if prefix lit s then Some (lit, string_drop (String.length lit) s)
  else None.

(** An alternation of literal texts: the first that matches wins. *)
Fixpoint re_literals (lits : list string) (s : string)
  : option (string * string) :=
  match lits with
  | [] => None
  | lit :: lits' =>
      match re_literal lit s with
      | Some m => Some m
      | None => re_literals lits' s
      end
  end.

(** The class of the SKIP pattern: space, tab and line feed. *)
Definition is_blank (c : ascii) : bool :=
  (code c =? 32) || (code c =? 9) || (code c =? 10).

(** The SKIP pattern: one or more blanks. *)
Definition re_skip (s : string) : option (string * string) :=
  match span is_blank s with
  | (EmptyString, _) => None
  | (v, rest) => Some (v, rest)
  end.

(** The alternatives of the OP pattern, in their order. *)
Definition OP_literals : list string :=
  ["=="; "!="; "<="; ">="; "+"; "-"; "*"; "/"; "="; "<"; ">"].

(** The names of [TOKEN_SPEC], each with the matcher of its pattern.  The
    pattern of NUMBER has the texts of [re_number]; its inner group has no
    name and closes before the named one, so the last group of a match is
    always the named one. *)
Definition TOKEN_SPEC : list (string * (string -> option (string * string))) :=
  [("NUMBER", re_number);
   ("ID", re_ident);
   ("OP", re_literals OP_literals);
   ("LPAREN", re_literal "(");
   ("RPAREN", re_literal ")");
   ("SEMI", re_literal ";");
   ("COMMA", re_literal ",");
   ("SKIP", re_skip);
   ("MISMATCH", re_any)].

(** The joined pattern at the start of a string: the name of the first
    alternative that matches ([mo.lastgroup]), the text matched
    ([mo.group()]) and the text left. *)
Fixpoint first_alternative
  (spec : list (string * (string -> option (string * string)))) (s : string)
  : option (string * string * string) :=
  match spec with
  | [] => None
  | (name, pattern) :: spec' =>
      match pattern s with
      | Some (value, rest) => Some (name, value, rest)
      | None => first_alternative spec' s
      end
  end.

Definition MASTER_RE_match (s : string) : option (string * string * string) :=
  first_alternative TOKEN_SPEC s.

(** [MASTER_RE.finditer(code)], as [finditer_from] above. *)
Fixpoint MASTER_RE_finditer_from (skip : nat) (s : string)
  : list (string * string) :=
  match s with
  | EmptyString => []
  | String _ s' =>
      match skip with
      | S k => MASTER_RE_finditer_from k s'
      | O =>
          match MASTER_RE_match s with
          | Some (kind, value, rest) =>
              (kind, value) ::
              MASTER_RE_finditer_from
                (String.length s' - String.length rest) s'
          | None => MASTER_RE_finditer_from 0 s'
          end
      end
  end.

Definition MASTER_RE_finditer (code : string) : list (string * string) :=
  MASTER_RE_finditer_from 0 code.

(** ** [tokenize] *)

(** One turn of the [for] loop. *)
Definition tokenize_step (tokens : list token) (mo : string * string)
  : list token :=
  let (kind, value) := mo in
  if (kind =? "NUMBER")%string then (tokens ++ [("NUMBER", value)])%list
  else if (kind =? "ID")%string then
    (tokens ++
     [if existsb (String.eqb value) KEYWORDS then ("KEYWORD", value)
      else ("ID", value)])%list
  else if (kind =? "SKIP")%string then tokens
  else if (kind =? "MISMATCH")%string then (tokens ++ [("ERROR", value)])%list
  else (tokens ++ [(kind, value)])%list.

Definition tokenize (code : string) : list token :=
  fold_left tokenize_step (MASTER_RE_finditer code) [].

(** ** [simulate_dfa] *)

(** The [for] loop, from the state it is in; [break] ends it. *)
Fixpoint dfa_loop (state : Z) (s : string) : Z :=
  match s with
  | EmptyString => state
  | String ch s' =>
      if (state =? 0)%Z && is_ident_start ch then dfa_loop 1%Z s'
      else if (state =? 1)%Z && is_ident_char ch then dfa_loop 1%Z s'
      else (-1)%Z
  end.

Definition simulate_dfa (s : string) : bool :=
  (dfa_loop 0%Z s =? 1)%Z && (0 <? String.length s).

(** ** [pretty_tree] *)

(** What a call prints, line by line.  A two-element tuple whose first
    element is ["BINOP"] cannot be unpacked into four names: the call then
    raises ValueError after the lines printed so far. *)
Inductive output :=
| Printed (lines : list string)
| ValueError_after (lines : list string).

(** ["  " * indent] *)
Fixpoint pad (indent : nat) : string :=
  match indent with
  | O => ""
  | S n => "  " ++ pad n
  end.

(** Printing [line], then what [k] prints. *)
Definition print_then (line : string) (k : output) : output :=
  match k with
  | Printed lines => Printed (line :: lines)
  | ValueError_after lines => ValueError_after (line :: lines)
  end.

(** What [first] prints, then, if it returned, what [second] prints. *)
Definition output_then (first second : output) : output :=
  match first with
  | Printed lines =>
      match second with
      | Printed lines' => Printed (lines ++ lines')%list
      | ValueError_after lines' => ValueError_after (lines ++ lines')%list
      end
  | ValueError_after lines => ValueError_after lines
  end.

Fixpoint pretty_tree (node : tree) (indent : nat) : output :=
  match node with
  | BINOP op lhs rhs =>
      print_then (pad indent ++ "BINOP " ++ op)
        (output_then (pretty_tree lhs (indent + 1))
                     (pretty_tree rhs (indent + 1)))
  | Leaf kind text =>
      if (kind =? "BINOP")%string then ValueError_after []
      else Printed [pad indent ++ kind ++ ": " ++ text]
  end.

(** ** Vocabulary for the statements about these functions *)

(** The closures again, each with the node its loop starts with. *)
Inductive closure_of
  : option tree -> (nat -> Lexer -> result (tree * Lexer)) -> Prop :=
| closure_of_E : closure_of None E
| closure_of_E_while node :
    closure_of (Some node) (fun fuel => E_while fuel node)
| closure_of_T : closure_of None T
| closure_of_T_while node :
    closure_of (Some node) (fun fuel => T_while fuel node)
| closure_of_F : closure_of None F.

(** A tree of the shape the data model describes. *)
Fixpoint wf_tree (t : tree) : bool :=
  match t with
  | Leaf kind _ => kind_in kind ["NUMBER"; "ID"]
  | BINOP op l r =>
      kind_in op ["+"; "-"; "*"; "/"] && wf_tree l && wf_tree r
  end.

(** The tokens of a tree, read from left to right. *)
Fixpoint inorder (t : tree) : list token :=
  match t with
  | Leaf kind text => [(kind, text)]
  | BINOP op l r => (inorder l ++ op_token op :: inorder r)%list
  end.

Definition is_paren (tok : token) : bool := kind_in (fst tok) ["("; ")"].

Definition without_parens (toks : list token) : list token :=
  filter (fun tok => negb (is_paren tok)) toks.

(** The nesting depth after [toks], starting at [depth]; [None] when a
    closing parenthesis has no partner. *)
Fixpoint paren_scan (depth : nat) (toks : list token) : option nat :=
  match toks with
  | [] => Some depth
  | tok :: toks' =>
      if (fst tok =? "(")%string then paren_scan (S depth) toks'
      else if (fst tok =? ")")%string then
        match depth with
        | O => None
        | S d => paren_scan d toks'
        end
      else paren_scan depth toks'
  end.

(** Between the states [lex] and [lex'] the cursor went over [seg]. *)
Definition consumes (lex : Lexer) (seg : list token) (lex' : Lexer) : Prop :=
  tokens lex' = tokens lex /\
  pos lex' = pos lex + List.length seg /\
  skipn (pos lex) (tokens lex) = (seg ++ skipn (pos lex') (tokens lex))%list.

(** What the parser's lexer makes of a token of [tokenize]. *)
Definition parser_tokens_of (tok : token) : list token :=
  let (kind, value) := tok in
  if (kind =? "NUMBER")%string then [("NUMBER", value)]
  else if kind_in kind ["ID"; "KEYWORD"] then [("ID", value)]
  else if kind_in kind ["OP"; "LPAREN"; "RPAREN"] &&
          kind_in value ["+"; "-"; "*"; "/"; "("; ")"]
  then [(value, value)]
  else [].


(** What a loop starts with: the node built so far, if any. *)
Definition start_wf (o : option tree) : bool :=
  match o with
  | Some node => wf_tree node
  | None => true
  end.

Definition start_inorder (o : option tree) : list token :=
  match o with
  | Some node => inorder node
  | None => []
  end.

(** What a closure that returned [t] in state [lex'] has done since [lex]. *)
Definition parsed (o : option tree) (lex : Lexer) (t : tree) (lex' : Lexer)
  : Prop :=
  exists seg,
    consumes lex seg lex' /\
    (forall d, paren_scan d seg = Some d) /\
    (o = None -> seg <> []) /\
    (start_wf o = true -> wf_tree t = true) /\
    (forallb token_ok (tokens lex) = true ->
     inorder t = (start_inorder o ++ without_parens seg)%list).



Definition returned (out : output) : bool :=
  match out with
  | Printed _ => true
  | ValueError_after _ => false
  end.

(** The output with every line changed by [f]. *)
Definition output_map (f : string -> string) (out : output) : output :=
  match out with
  | Printed lines => Printed (map f lines)
  | ValueError_after lines => ValueError_after (map f lines)
  end.

(** The kinds of [TOKEN_SPEC] whose pattern is a choice of fixed texts,
    with those texts. *)
Definition literal_table : list (string * string) :=
  map (pair "OP") OP_literals ++
  [("LPAREN", "("); ("RPAREN", ")"); ("SEMI", ";"); ("COMMA", ",")].

(** The five ways in which the master pattern matches at the start of [s]:
    kind, text and rest. *)
Inductive master_match (s : string) : string -> string -> string -> Prop :=
| mm_NUMBER v rest :
    re_number s = Some (v, rest) -> master_match s "NUMBER" v rest
| mm_ID v rest :
    re_number s = None -> re_ident s = Some (v, rest) ->
    master_match s "ID" v rest
| mm_literal k v rest :
    In (k, v) literal_table -> s = v ++ rest -> master_match s k v rest
| mm_SKIP v rest :
    v <> "" -> string_forallb is_blank v = true -> s = v ++ rest ->
    master_match s "SKIP" v rest
| mm_MISMATCH c rest :
    s = String c rest ->
    is_digit c = false -> is_ident_start c = false ->
    is_blank c = false -> is_operator c = false ->
    master_match s "MISMATCH" (String c "") rest.

Definition is_keyword (value : string) : bool :=
  existsb (String.eqb value) KEYWORDS.

(** The shape of a token of [tokenize]. *)
Definition tokenize_token_ok (tok : token) : bool :=
  let (kind, value) := tok in
  ((kind =? "NUMBER")%string && is_number_text value) ||
  ((kind =? "KEYWORD")%string && is_ident_text value && is_keyword value) ||
  ((kind =? "ID")%string && is_ident_text value && negb (is_keyword value)) ||
  existsb (fun kv => (fst kv =? kind)%string && (snd kv =? value)%string)
    literal_table ||
  ((kind =? "ERROR")%string && (String.length value =? 1) &&
   string_forallb
     (fun c => negb (is_digit c || is_ident_start c || is_blank c ||
                     is_operator c)) value).

(** The texts of a token list, one after the other. *)
Definition token_texts (toks : list token) : string :=
  fold_right append "" (map snd toks).

(** The texts of a token list with a space after each. *)
Definition text_of_tokens (toks : list token) : string :=
  fold_right (fun tok text => snd tok ++ " " ++ text) "" toks.



(** No operator comes next. *)
Definition no_operator_next (toks : list token) : bool :=
  match toks with
  | tok :: _ => negb (kind_in (fst tok) ["+"; "-"; "*"; "/"])
  | [] => true
  end.

(** * The recursion limit

    The interpreter allows only so many nested calls and raises
    RecursionError at the call that would go beyond.  [frames] is the number
    of nested calls of Python functions still allowed where a function is
    called: the call itself takes one, and its body runs with one less. *)

Definition enter {A : Type} (frames : nat) (body : nat -> result A) : result A :=
  match frames with
  | O => Raise RecursionError
  | S frames' => body frames'
  end.

(** [lex.peek()] *)
Definition peek_call (frames : nat) (lex : Lexer) : result token :=
  enter frames (fun _ => Ok (peek lex)).

(** [lex.next()], which calls [self.peek()] before it moves the cursor *)
Definition next_call (frames : nat) (lex : Lexer) : result (token * Lexer) :=
  enter frames (fun frames' =>
    tok <- peek_call frames' lex ;;
    Ok (tok, {| tokens := tokens lex; pos := pos lex + 1 |})).

(** The closures under the limit.  [E_lim], [T_lim] and [F_lim] take the
    frames left where they are called; the two loops run in the frame of
    their closure and take the frames left inside it. *)
Fixpoint E_lim (fuel frames : nat) (lex : Lexer) : result (tree * Lexer) :=
  match fuel with
  | O => OutOfFuel
  | S fuel =>
      enter frames (fun frames =>
        '(node, lex) <- T_lim fuel frames lex ;;
        E_while_lim fuel frames node lex)
  end

with E_while_lim (fuel frames : nat) (node : tree) (lex : Lexer)
  : result (tree * Lexer) :=
  match fuel with
  | O => OutOfFuel
  | S fuel =>
      tok <- peek_call frames lex ;;
      if kind_in (fst tok) ["+"; "-"] then
        '(tok, lex) <- next_call frames lex ;;
        let op := fst tok in
        '(rhs, lex) <- T_lim fuel frames lex ;;
        E_while_lim fuel frames (BINOP op node rhs) lex
      else Ok (node, lex)
  end

with T_lim (fuel frames : nat) (lex : Lexer) : result (tree * Lexer) :=
  match fuel with
  | O => OutOfFuel
  | S fuel =>
      enter frames (fun frames =>
        '(node, lex) <- F_lim fuel frames lex ;;
        T_while_lim fuel frames node lex)
  end

with T_while_lim (fuel frames : nat) (node : tree) (lex : Lexer)
  : result (tree * Lexer) :=
  match fuel with
  | O => OutOfFuel
  | S fuel =>
      tok <- peek_call frames lex ;;
      if kind_in (fst tok) ["*"; "/"] then
        '(tok, lex) <- next_call frames lex ;;
        let op := fst tok in
        '(rhs, lex) <- F_lim fuel frames lex ;;
        T_while_lim fuel frames (BINOP op node rhs) lex
      else Ok (node, lex)
  end

with F_lim (fuel frames : nat) (lex : Lexer) : result (tree * Lexer) :=
  match fuel with
  | O => OutOfFuel
  | S fuel =>
      enter frames (fun frames =>
        tok <- peek_call frames lex ;;
        if (fst tok =? "(")%string then
          '(_, lex) <- next_call frames lex ;;
          '(node, lex) <- E_lim fuel frames lex ;;
          tok' <- peek_call frames lex ;;
          if negb (fst tok' =? ")")%string
          then Raise (SyntaxError Faltando_paren)
          else '(_, lex) <- next_call frames lex ;; Ok (node, lex)
        else if (fst tok =? "NUMBER")%string then
          '(tok', lex) <- next_call frames lex ;;
          Ok (Leaf "NUMBER" (snd tok'), lex)
        else if (fst tok =? "ID")%string then
          '(tok', lex) <- next_call frames lex ;;
          Ok (Leaf "ID" (snd tok'), lex)
        else Raise (SyntaxError (Token_inesperado tok)))
  end.

(** The parser on a token list, with [frames] left inside the caller. *)
Definition parse_tokens_lim (frames : nat) (toks : list token) : result tree :=
  let lex := {| tokens := toks; pos := 0 |} in
  '(tree, lex) <- E_lim (fuel_for lex) frames lex ;;
  tok <- peek_call frames lex ;;
  if negb (fst tok =? "EOF")%string
  then Raise (SyntaxError Entrada_extra)
  else Ok tree.

(** [parse_expression] called with [frames] left: the constructor of the
    lexer is a call too. *)
Definition parse_expression_lim (frames : nat) (text : string) : result tree :=
  enter frames (fun frames =>
    lex <- enter frames (fun _ => Lexer_init text) ;;
    '(tree, lex) <- E_lim (fuel_for lex) frames lex ;;
    tok <- peek_call frames lex ;;
    if negb (fst tok =? "EOF")%string
    then Raise (SyntaxError Entrada_extra)
    else Ok tree).

(** Each limited closure with the closure it is without the limit, and the
    constant of the frames it needs. *)
Inductive closure_lim
  : nat -> (nat -> nat -> Lexer -> result (tree * Lexer)) ->
    (nat -> Lexer -> result (tree * Lexer)) -> Prop :=
| closure_lim_E : closure_lim 5 E_lim E
| closure_lim_E_while node :
    closure_lim 1 (fun fuel frames => E_while_lim fuel frames node)
                  (fun fuel => E_while fuel node)
| closure_lim_T : closure_lim 4 T_lim T
| closure_lim_T_while node :
    closure_lim 1 (fun fuel frames => T_while_lim fuel frames node)
                  (fun fuel => T_while fuel node)
| closure_lim_F : closure_lim 3 F_lim F.

(** An outcome under the limit: RecursionError, or the outcome without. *)
Definition limited {A : Type} (m m' : result A) : Prop :=
  m = Raise RecursionError \/ m = m'.

(** [n] copies of a string. *)
Fixpoint string_repeat (s : string) (n : nat) : string :=
  match n with
  | O => ""
  | S n' => s ++ string_repeat s n'
  end.

(** A lexeme boundary of the text [u ++ v]: its start, or a place where a
    match of [TOKEN_RE] ends in the run of [finditer].  [u] is made of the
    texts of the matches so far, [v] is where the next search starts. *)
Inductive lexeme_boundary : string -> string -> Prop :=
| boundary_start v : lexeme_boundary "" v
| boundary_after c u v mo :
    TOKEN_RE_match (c ++ u ++ v) = Some (mo, u ++ v) ->
    lexeme_boundary u v ->
    lexeme_boundary (c ++ u) v.

(** * Proofs *)

(** ** Strings *)

Lemma append_nil_r (s : string) : s ++ "" = s.
Proof. induction s as [|c s IH]; simpl; congruence. Qed.

Lemma append_assoc (s t u : string) : (s ++ t) ++ u = s ++ t ++ u.
Proof. induction s as [|c s IH]; simpl; congruence. Qed.

Lemma length_append (s t : string) :
  String.length (s ++ t) = String.length s + String.length t.
Proof. induction s as [|c s IH]; simpl; congruence. Qed.

(** ** Character classes *)

Ltac ascii_cases c :=
  destruct c as [[] [] [] [] [] [] [] []]; vm_compute; try congruence; auto.

Lemma space_not_digit c : is_space c = true -> is_digit c = false.
Proof. ascii_cases c. Qed.

Lemma space_not_ident_char c : is_space c = true -> is_ident_char c = false.
Proof. ascii_cases c. Qed.

Lemma space_not_stop c : is_space c = true -> c <> "."%char.
Proof. ascii_cases c. Qed.

Lemma space_not_operator c : is_space c = true -> is_operator c = false.
Proof. ascii_cases c. Qed.

Lemma nonspace_dot c : is_space c = false -> is_dot c = true.
Proof. ascii_cases c. Qed.

Lemma ident_char_not_start c : is_ident_char c = false -> is_ident_start c = false.
Proof.
  unfold is_ident_char. destruct (is_ident_start c); simpl; congruence.
Qed.

Lemma stop_not_digit : is_digit "."%char = false.
Proof. reflexivity. Qed.

Lemma operator_kind c :
  is_operator c = true ->
  kind_in (String c "") ["+"; "-"; "*"; "/"; "("; ")"] = true.
Proof. ascii_cases c. Qed.

Lemma str_in_single_operator c :
  str_in (String c "") "+-*/()" = is_operator c.
Proof. reflexivity. Qed.

(** ** [span] *)

Lemma span_split p s : s = fst (span p s) ++ snd (span p s).
Proof.
  induction s as [|c s IH]; simpl; auto.
  destruct (p c); simpl; auto.
  destruct (span p s) as [a b]; simpl in *. congruence.
Qed.

Lemma span_prefix_all p s : string_forallb p (fst (span p s)) = true.
Proof.
  induction s as [|c s IH]; simpl; auto.
  destruct (p c) eqn:Hc; simpl; auto.
  destruct (span p s) as [a b]; simpl in *. now rewrite Hc.
Qed.

Lemma span_all p s t :
  string_forallb p s = true ->
  match t with String c _ => p c = false | EmptyString => True end ->
  span p (s ++ t) = (s, t).
Proof.
  intros Hs Ht. induction s as [|c s IH]; simpl in *.
  - destruct t as [|c t]; simpl; auto. now rewrite Ht.
  - apply andb_prop in Hs as [Hc Hs]. rewrite Hc, (IH Hs). reflexivity.
Qed.

(** A character outside the class stops the span wherever it is put. *)
Lemma span_append p u c s :
  p c = false ->
  span p (u ++ String c s) = (fst (span p u), snd (span p u) ++ String c s).
Proof.
  intros Hc. induction u as [|a u IH]; simpl.
  - now rewrite Hc.
  - destruct (p a); simpl; auto.
    rewrite IH. destruct (span p u); reflexivity.
Qed.

Lemma span_length p s :
  String.length (snd (span p s)) <= String.length s.
Proof.
  rewrite (span_split p s) at 2. rewrite length_append. lia.
Qed.

(** ** The pattern consumes a non-empty prefix *)

Lemma proper_suffix_length rest s :
  proper_suffix rest s -> String.length rest < String.length s.
Proof.
  intros (pre & Hne & ->). rewrite length_append.
  destruct pre; simpl; [congruence | lia].
Qed.

Lemma proper_suffix_cons c rest s :
  proper_suffix rest s -> proper_suffix rest (String c s).
Proof.
  intros (pre & Hne & ->). exists (String c pre). split; [discriminate | reflexivity].
Qed.

Lemma re_number_suffix s x rest :
  re_number s = Some (x, rest) -> x <> "" /\ s = x ++ rest.
Proof.
  unfold re_number. intros H.
  pose proof (span_split is_digit s) as Hs.
  destruct (span is_digit s) as [int r]; simpl in Hs.
  destruct int as [|d int]; [discriminate|].
  destruct r as [|c r1].
  - inversion H; subst. split; [discriminate | reflexivity].
  - destruct (Ascii.eqb_spec c "."%char) as [->|Hc].
    + pose proof (span_split is_digit r1) as Hr.
      destruct (span is_digit r1) as [frac r2]; simpl in Hr.
      destruct frac as [|f frac].
      * inversion H; subst. split; [discriminate | reflexivity].
      * rewrite Hr in Hs. inversion H as [[Hx Hrest]].
        split; [discriminate|]. rewrite Hs, <- Hrest.
        simpl. f_equal. rewrite append_assoc. reflexivity.
    + inversion H; subst. split; [discriminate | reflexivity].
Qed.

Lemma re_ident_suffix s x rest :
  re_ident s = Some (x, rest) -> x <> "" /\ s = x ++ rest.
Proof.
  destruct s as [|c s]; simpl; [discriminate|].
  destruct (is_ident_start c); [|discriminate].
  pose proof (span_split is_ident_char s) as Hs.
  destruct (span is_ident_char s) as [tl r]; simpl in Hs.
  intros H; inversion H; subst. split; [discriminate|]. simpl. congruence.
Qed.

Lemma re_any_suffix s x rest :
  re_any s = Some (x, rest) -> exists c, x = String c "" /\ s = String c rest.
Proof.
  destruct s as [|c s]; simpl; [discriminate|].
  destruct (is_dot c); [|discriminate].
  intros H; inversion H; subst. eauto.
Qed.

Lemma re_alternatives_suffix s g rest :
  re_alternatives s = Some (g, rest) -> proper_suffix rest s.
Proof.
  unfold re_alternatives.
  destruct (re_number s) as [[x r]|] eqn:Hn.
  { intros H; inversion H; subst. apply re_number_suffix in Hn as [? ?].
    exists x; auto. }
  destruct (re_ident s) as [[x r]|] eqn:Hi.
  { intros H; inversion H; subst. apply re_ident_suffix in Hi as [? ?].
    exists x; auto. }
  destruct (re_any s) as [[x r]|] eqn:Ha; [|discriminate].
  intros H; inversion H; subst. apply re_any_suffix in Ha as (c & -> & ->).
  exists (String c ""). split; [discriminate | reflexivity].
Qed.

Lemma TOKEN_RE_match_suffix s g rest :
  TOKEN_RE_match s = Some (g, rest) -> proper_suffix rest s.
Proof.
  induction s as [|c s IH]; simpl.
  - apply re_alternatives_suffix.
  - destruct (is_space c).
    + destruct (TOKEN_RE_match s) as [[g' r']|] eqn:Hm.
      * intros H; inversion H; subst. apply proper_suffix_cons. now apply IH.
      * apply re_alternatives_suffix.
    + apply re_alternatives_suffix.
Qed.

(** ** The groups of a match *)

Lemma span_whole p s :
  string_forallb p s = true -> span p s = (s, "").
Proof.
  intros H. rewrite <- (append_nil_r s) at 1. now apply span_all.
Qed.

Lemma number_text_int int :
  int <> "" -> string_forallb is_digit int = true -> is_number_text int = true.
Proof.
  intros Hne Hall. unfold is_number_text, re_number.
  rewrite (span_whole _ _ Hall). destruct int; [congruence | reflexivity].
Qed.

Lemma number_text_frac int frac :
  int <> "" -> string_forallb is_digit int = true ->
  frac <> "" -> string_forallb is_digit frac = true ->
  is_number_text (int ++ "." ++ frac) = true.
Proof.
  intros Hne Hall Hne' Hall'. unfold is_number_text, re_number.
  change ("." ++ frac) with (String "."%char frac).
  rewrite (span_all is_digit int (String "."%char frac) Hall stop_not_digit).
  destruct int as [|d int]; [congruence|].
  rewrite Ascii.eqb_refl, (span_whole _ _ Hall').
  destruct frac; [congruence | reflexivity].
Qed.

Lemma re_number_text s x rest :
  re_number s = Some (x, rest) -> is_number_text x = true.
Proof.
  unfold re_number. intros H.
  pose proof (span_prefix_all is_digit s) as Hall.
  destruct (span is_digit s) as [int r]; simpl in Hall.
  destruct int as [|d int]; [discriminate|].
  assert (Hint : is_number_text (String d int) = true)
    by (apply number_text_int; [discriminate | exact Hall]).
  destruct r as [|c r1].
  - inversion H; subst. exact Hint.
  - destruct (Ascii.eqb_spec c "."%char) as [->|Hc].
    + pose proof (span_prefix_all is_digit r1) as Hall'.
      destruct (span is_digit r1) as [frac r2]; simpl in Hall'.
      destruct frac as [|f frac].
      * inversion H; subst. exact Hint.
      * inversion H as [[Hx Hrest]].
        apply (number_text_frac (String d int) (String f frac));
          auto; discriminate.
    + inversion H; subst. exact Hint.
Qed.

Lemma re_ident_text s x rest :
  re_ident s = Some (x, rest) -> is_ident_text x = true.
Proof.
  destruct s as [|c s]; simpl; [discriminate|].
  destruct (is_ident_start c) eqn:Hc; [|discriminate].
  pose proof (span_prefix_all is_ident_char s) as Hall.
  destruct (span is_ident_char s) as [tl r]; simpl in Hall.
  intros H; inversion H; subst.
  unfold is_ident_text; simpl. rewrite Hc, (span_whole _ _ Hall). reflexivity.
Qed.

Lemma re_alternatives_ok s g rest :
  re_alternatives s = Some (g, rest) -> groups_ok g = true.
Proof.
  unfold re_alternatives.
  destruct (re_number s) as [[x r]|] eqn:Hn.
  { intros H; inversion H; subst. simpl. eapply re_number_text; eauto. }
  destruct (re_ident s) as [[x r]|] eqn:Hi.
  { intros H; inversion H; subst. simpl. eapply re_ident_text; eauto. }
  destruct (re_any s) as [[x r]|] eqn:Ha; [|discriminate].
  intros H; inversion H; subst. apply re_any_suffix in Ha as (c & -> & ->).
  reflexivity.
Qed.

Lemma TOKEN_RE_match_ok s g rest :
  TOKEN_RE_match s = Some (g, rest) -> groups_ok g = true.
Proof.
  induction s as [|c s IH]; simpl.
  - apply re_alternatives_ok.
  - destruct (is_space c).
    + destruct (TOKEN_RE_match s) as [[g' r']|] eqn:Hm.
      * intros H; inversion H; subst. now apply IH.
      * apply re_alternatives_ok.
    + apply re_alternatives_ok.
Qed.

(** ** [finditer] *)

Lemma string_length_ind (P : string -> Prop) :
  (forall s, (forall t, String.length t < String.length s -> P t) -> P s) ->
  forall s, P s.
Proof.
  intros H s.
  assert (Hn : forall n t, String.length t < n -> P t).
  { induction n as [|n IH]; intros t Ht; [lia|].
    apply H. intros u Hu. apply IH. lia. }
  apply (Hn (S (String.length s))). lia.
Qed.

Lemma finditer_from_skip pre rest :
  finditer_from (String.length pre) (pre ++ rest) = finditer_from 0 rest.
Proof.
  induction pre as [|c pre IH]; simpl; auto.
Qed.

(** The search loop of [finditer], one match at a time. *)
Lemma finditer_eq s :
  finditer s =
  match TOKEN_RE_match s with
  | Some (g, rest) => g :: finditer rest
  | None =>
      match s with
      | String _ s' => finditer s'
      | EmptyString => []
      end
  end.
Proof.
  unfold finditer. destruct s as [|c s]; [reflexivity|].
  cbn [finditer_from].
  destruct (TOKEN_RE_match (String c s)) as [[g rest]|] eqn:Hm; [|reflexivity].
  f_equal. apply TOKEN_RE_match_suffix in Hm as (pre & Hne & Hs).
  destruct pre as [|a pre]; [congruence|].
  simpl in Hs. inversion Hs; subst.
  rewrite length_append.
  replace (String.length pre + String.length rest - String.length rest)
    with (String.length pre) by lia.
  apply finditer_from_skip.
Qed.

Lemma finditer_ok s : forallb groups_ok (finditer s) = true.
Proof.
  induction s as [s IH] using string_length_ind.
  rewrite finditer_eq.
  destruct (TOKEN_RE_match s) as [[g rest]|] eqn:Hm.
  - simpl. rewrite (TOKEN_RE_match_ok _ _ _ Hm). simpl.
    apply IH. apply proper_suffix_length. eapply TOKEN_RE_match_suffix; eauto.
  - destruct s as [|c s]; [reflexivity|]. apply IH. simpl; lia.
Qed.

(** ** [Lexer.__init__] *)

Lemma Lexer_step_ok toks mo :
  groups_ok mo = true -> Lexer_step toks mo = Ok (toks ++ match_tokens mo)%list.
Proof.
  destruct mo as [[num ident] other]. unfold match_tokens, Lexer_step.
  destruct num as [x|], ident as [y|], other as [o|];
    cbn [groups_ok]; try discriminate; intros H.
  - destruct x; [discriminate H | reflexivity].
  - destruct y; [discriminate H | reflexivity].
  - destruct o as [|c [|]]; try discriminate. cbn [truthy].
    destruct (str_in (String c "") "+-*/()"); simpl; auto.
    now rewrite app_nil_r.
Qed.

Lemma Lexer_loop_ok mos : forall toks,
  forallb groups_ok mos = true ->
  Lexer_loop toks mos = Ok (toks ++ flat_map match_tokens mos)%list.
Proof.
  induction mos as [|mo mos IH]; intros toks H; simpl.
  - now rewrite app_nil_r.
  - simpl in H. apply andb_prop in H as [Hmo Hmos].
    rewrite (Lexer_step_ok _ _ Hmo). simpl.
    rewrite (IH _ Hmos), <- app_assoc. reflexivity.
Qed.

Lemma Lexer_init_eq text :
  Lexer_init text =
  Ok {| tokens := flat_map match_tokens (finditer text); pos := 0 |}.
Proof.
  unfold Lexer_init. rewrite (Lexer_loop_ok _ _ (finditer_ok text)). reflexivity.
Qed.

Lemma Lexer_init_tokens text :
  Lexer_init text = Ok {| tokens := Lexer_tokens text; pos := 0 |}.
Proof.
  unfold Lexer_tokens. rewrite Lexer_init_eq. reflexivity.
Qed.

Lemma Lexer_tokens_flat text :
  Lexer_tokens text = flat_map match_tokens (finditer text).
Proof. unfold Lexer_tokens. rewrite Lexer_init_eq. reflexivity. Qed.

(** The token sequence, one match at a time. *)
Lemma Lexer_tokens_eq s :
  Lexer_tokens s =
  match TOKEN_RE_match s with
  | Some (g, rest) => (match_tokens g ++ Lexer_tokens rest)%list
  | None =>
      match s with
      | String _ s' => Lexer_tokens s'
      | EmptyString => []
      end
  end.
Proof.
  rewrite Lexer_tokens_flat, finditer_eq.
  destruct (TOKEN_RE_match s) as [[g rest]|].
  - simpl. now rewrite Lexer_tokens_flat.
  - destruct s; [reflexivity | now rewrite Lexer_tokens_flat].
Qed.

(** ** Tokens *)

Lemma match_tokens_ok mo :
  groups_ok mo = true -> forallb token_ok (match_tokens mo) = true.
Proof.
  destruct mo as [[num ident] other]. unfold match_tokens, Lexer_step.
  destruct num as [x|], ident as [y|], other as [o|];
    cbn [groups_ok]; try discriminate; intros H.
  - destruct x; [discriminate H|]. cbn [truthy app forallb group_text token_ok].
    rewrite H. reflexivity.
  - destruct y; [discriminate H|]. cbn [truthy app forallb group_text token_ok].
    rewrite H. reflexivity.
  - destruct o as [|c [|]]; try discriminate. cbn [truthy].
    rewrite str_in_single_operator.
    destruct (is_operator c) eqn:Hc; [|reflexivity].
    cbn [app forallb token_ok].
    rewrite (operator_kind _ Hc), String.eqb_refl. simpl.
    now rewrite !orb_true_r.
Qed.

Lemma Lexer_tokens_ok text : forallb token_ok (Lexer_tokens text) = true.
Proof.
  rewrite Lexer_tokens_flat.
  pose proof (finditer_ok text) as H.
  induction (finditer text) as [|mo mos IH]; [reflexivity|].
  simpl in *. apply andb_prop in H as [Hmo Hmos].
  rewrite forallb_app, (match_tokens_ok _ Hmo), (IH Hmos). reflexivity.
Qed.

Lemma token_ok_kind tok :
  token_ok tok = true ->
  kind_in (fst tok) ["NUMBER"; "ID"; "+"; "-"; "*"; "/"; "("; ")"] = true.
Proof.
  destruct tok as [kind text]. unfold token_ok, kind_in. cbn [fst existsb].
  destruct (kind =? "NUMBER")%string; [reflexivity|].
  destruct (kind =? "ID")%string; [reflexivity|].
  simpl. intros H. apply andb_prop in H as [H _].
  rewrite !orb_false_r in *. exact H.
Qed.

Lemma token_ok_not_EOF tok : token_ok tok = true -> fst tok <> "EOF".
Proof.
  intros H Heq. apply token_ok_kind in H. rewrite Heq in H. discriminate H.
Qed.

(** ** White space and other silent characters *)

Lemma space_silent c : is_space c = true -> is_silent c = true.
Proof. ascii_cases c. Qed.

Lemma unrecognized_silent c :
  is_recognized c || (c =? ".")%char = false -> is_silent c = true.
Proof. ascii_cases c. Qed.

Lemma silent_inv c :
  is_silent c = true ->
  is_digit c = false /\ is_ident_char c = false /\
  (c =? ".")%char = false /\ is_operator c = false.
Proof.
  unfold is_silent. intros H.
  repeat (apply andb_prop in H as [H ?]).
  repeat split; now apply negb_true_iff.
Qed.

(** At a silent character the alternation can only take the third branch. *)
Lemma re_alternatives_silent c s :
  is_silent c = true ->
  re_alternatives (String c s) =
  if is_dot c then Some ((None, None, Some (String c "")), s) else None.
Proof.
  intros H. apply silent_inv in H as (Hd & Hi & _ & _).
  apply ident_char_not_start in Hi.
  unfold re_alternatives, re_number, re_ident, re_any.
  cbn [span]. rewrite Hd, Hi. destruct (is_dot c); reflexivity.
Qed.

Lemma match_tokens_silent c :
  is_silent c = true -> match_tokens (None, None, Some (String c "")) = [].
Proof.
  intros H. apply silent_inv in H as (_ & _ & _ & Ho).
  unfold match_tokens, Lexer_step. cbn [truthy].
  rewrite str_in_single_operator, Ho. reflexivity.
Qed.

(** White space in front of a text adds no token. *)
Lemma Lexer_tokens_space c s :
  is_space c = true -> Lexer_tokens (String c s) = Lexer_tokens s.
Proof.
  intros Hc. rewrite Lexer_tokens_eq. cbn [TOKEN_RE_match]. rewrite Hc.
  destruct (TOKEN_RE_match s) as [[g r]|] eqn:Hm.
  - rewrite (Lexer_tokens_eq s), Hm. reflexivity.
  - rewrite (re_alternatives_silent _ _ (space_silent _ Hc)).
    destruct (is_dot c); [|reflexivity].
    rewrite (match_tokens_silent _ (space_silent _ Hc)). reflexivity.
Qed.

Lemma Lexer_tokens_spaces w s :
  all_space w = true -> Lexer_tokens (w ++ s) = Lexer_tokens s.
Proof.
  induction w as [|c w IH]; simpl; auto.
  intros H. apply andb_prop in H as [Hc Hw].
  rewrite (Lexer_tokens_space _ _ Hc). auto.
Qed.

Lemma TOKEN_RE_match_nonspace c s :
  is_space c = false -> TOKEN_RE_match (String c s) = re_alternatives (String c s).
Proof. intros H. cbn [TOKEN_RE_match]. now rewrite H. Qed.

Lemma Lexer_tokens_silent c s :
  is_silent c = true -> Lexer_tokens (String c s) = Lexer_tokens s.
Proof.
  intros Hc. destruct (is_space c) eqn:Hs.
  - now apply Lexer_tokens_space.
  - rewrite Lexer_tokens_eq, (TOKEN_RE_match_nonspace _ _ Hs),
      (re_alternatives_silent _ _ Hc), (nonspace_dot _ Hs),
      (match_tokens_silent _ Hc).
    reflexivity.
Qed.

(** ** A silent character separates lexemes

    The alternation looks ahead only to extend a number or an identifier,
    which a silent character cannot do: put after a non-empty text [u], it
    leaves every match inside [u] as it is. *)

Lemma re_number_append u c s :
  is_digit c = false -> (c =? ".")%char = false ->
  re_number (u ++ String c s) =
  option_map (fun xr => (fst xr, snd xr ++ String c s)) (re_number u).
Proof.
  intros Hd Hs. unfold re_number. rewrite (span_append _ _ _ _ Hd).
  destruct (span is_digit u) as [int r]. cbn [fst snd].
  destruct int as [|d int]; [reflexivity|].
  destruct r as [|a r1]; cbn [append].
  - rewrite Hs. reflexivity.
  - destruct (a =? ".")%char; [|reflexivity].
    rewrite (span_append _ _ _ _ Hd).
    destruct (span is_digit r1) as [frac r2]. cbn [fst snd].
    destruct frac; reflexivity.
Qed.

Lemma re_ident_append u c s :
  is_ident_char c = false ->
  re_ident (u ++ String c s) =
  option_map (fun xr => (fst xr, snd xr ++ String c s)) (re_ident u).
Proof.
  intros Hi. destruct u as [|a u]; cbn [append re_ident].
  - now rewrite (ident_char_not_start _ Hi).
  - destruct (is_ident_start a); [|reflexivity].
    rewrite (span_append _ _ _ _ Hi).
    destruct (span is_ident_char u); reflexivity.
Qed.

Lemma re_alternatives_append a u c s :
  is_silent c = true ->
  re_alternatives (String a u ++ String c s) =
  option_map (fun gr => (fst gr, snd gr ++ String c s))
             (re_alternatives (String a u)).
Proof.
  intros H. apply silent_inv in H as (Hd & Hi & Hs & _).
  unfold re_alternatives.
  rewrite (re_number_append _ _ _ Hd Hs), (re_ident_append _ _ _ Hi).
  destruct (re_number (String a u)) as [[x r]|]; [reflexivity|].
  destruct (re_ident (String a u)) as [[x r]|]; [reflexivity|].
  cbn [option_map append re_any]. destruct (is_dot a); reflexivity.
Qed.

Lemma Lexer_tokens_separator c :
  is_silent c = true ->
  forall u s,
    Lexer_tokens (u ++ String c s) = (Lexer_tokens u ++ Lexer_tokens s)%list.
Proof.
  intros Hc u. induction u as [u IH] using string_length_ind. intros s.
  destruct u as [|a u].
  - cbn [append]. rewrite (Lexer_tokens_silent _ _ Hc). reflexivity.
  - destruct (is_space a) eqn:Ha.
    + cbn [append]. rewrite !(Lexer_tokens_space _ _ Ha).
      apply IH. simpl; lia.
    + rewrite (Lexer_tokens_eq (String a u ++ String c s)),
        (Lexer_tokens_eq (String a u)).
      cbn [append]. rewrite !(TOKEN_RE_match_nonspace _ _ Ha).
      change (String a (u ++ String c s)) with (String a u ++ String c s).
      rewrite (re_alternatives_append _ _ _ _ Hc).
      destruct (re_alternatives (String a u)) as [[g r]|] eqn:Hm;
        cbn [option_map fst snd].
      * rewrite IH, app_assoc; [reflexivity|].
        apply proper_suffix_length. eapply re_alternatives_suffix; eauto.
      * cbn [append]. apply IH. simpl; lia.
Qed.

(** ** The cursor *)

Lemma peek_EOF lex :
  List.length (tokens lex) <= pos lex -> peek lex = ("EOF", "").
Proof.
  intros H. unfold peek.
  destruct (Nat.ltb_spec (pos lex) (List.length (tokens lex))); [lia | reflexivity].
Qed.

Lemma peek_in_range lex :
  fst (peek lex) <> "EOF" -> pos lex < List.length (tokens lex).
Proof.
  intros H. destruct (Nat.lt_ge_cases (pos lex) (List.length (tokens lex))); auto.
  rewrite peek_EOF in H by assumption. now elim H.
Qed.

Lemma kind_in_range lex ks :
  kind_in "EOF" ks = false -> kind_in (fst (peek lex)) ks = true ->
  pos lex < List.length (tokens lex).
Proof.
  intros Hks H. apply peek_in_range. intros Heq. congruence.
Qed.

Lemma remaining_next lex :
  pos lex < List.length (tokens lex) ->
  S (remaining (snd (next lex))) = remaining lex.
Proof. unfold remaining, next. cbn [snd tokens pos]. lia. Qed.

Lemma cursor_ok_refl lex t : cursor_ok lex (Ok (t, lex)).
Proof. simpl. auto. Qed.

Lemma cursor_ok_next lex r :
  cursor_ok (snd (next lex)) r -> cursor_ok lex r.
Proof.
  destruct r as [[t lex']| |]; simpl; auto. intros [-> H]. split; [reflexivity | lia].
Qed.

Lemma cursor_ok_bind lex m k :
  cursor_ok lex m ->
  (forall t lex', m = Ok (t, lex') -> cursor_ok lex' (k (t, lex'))) ->
  cursor_ok lex (bind m k).
Proof.
  intros Hm Hk. destruct m as [[t lex']| |]; simpl; auto.
  specialize (Hk t lex' eq_refl). simpl in Hm. destruct Hm as [Ht Hp].
  destruct (k (t, lex')) as [[t2 lex2]| |]; simpl in *; auto.
  destruct Hk as [Ht2 Hp2]. split; [congruence | lia].
Qed.

Lemma cursor_closure fuel : forall k f lex,
  closure k f -> cursor_ok lex (f fuel lex).
Proof.
  induction fuel as [|fuel IH]; intros k f lex Hf.
  { destruct Hf; exact I. }
  destruct Hf; cbn [E E_while T T_while F].
  - apply cursor_ok_bind; [apply (IH _ _ _ closure_T)|].
    intros t lex' _. apply (IH _ _ _ (closure_E_while t)).
  - destruct (kind_in (fst (peek lex)) ["+"; "-"]); [|apply cursor_ok_refl].
    apply cursor_ok_next. cbn [next snd fst].
    apply cursor_ok_bind; [apply (IH _ _ _ closure_T)|].
    intros t lex' _. apply (IH _ _ _ (closure_E_while _)).
  - apply cursor_ok_bind; [apply (IH _ _ _ closure_F)|].
    intros t lex' _. apply (IH _ _ _ (closure_T_while t)).
  - destruct (kind_in (fst (peek lex)) ["*"; "/"]); [|apply cursor_ok_refl].
    apply cursor_ok_next. cbn [next snd fst].
    apply cursor_ok_bind; [apply (IH _ _ _ closure_F)|].
    intros t lex' _. apply (IH _ _ _ (closure_T_while _)).
  - cbv zeta. destruct (fst (peek lex) =? "(")%string.
    + apply cursor_ok_next. cbn [next snd fst].
      apply cursor_ok_bind; [apply (IH _ _ _ closure_E)|].
      intros t lex' _.
      destruct (negb (fst (peek lex') =? ")")%string); [exact I|].
      simpl; split; [reflexivity | lia].
    + destruct (fst (peek lex) =? "NUMBER")%string;
        [simpl; split; [reflexivity | lia]|].
      destruct (fst (peek lex) =? "ID")%string;
        [simpl; split; [reflexivity | lia] | exact I].
Qed.

Lemma cursor_remaining lex t lex' :
  cursor_ok lex (Ok (t, lex')) -> remaining lex' <= remaining lex.
Proof. unfold remaining. simpl. intros [-> H]. lia. Qed.

(** ** The budget *)

Lemma bind_stable {A B : Type} (m m' : result A) (k k' : A -> result B) :
  (m <> OutOfFuel -> m' = m) ->
  (forall a, m = Ok a -> k a <> OutOfFuel -> k' a = k a) ->
  bind m k <> OutOfFuel -> bind m' k' = bind m k.
Proof.
  intros Hm Hk H. destruct m as [a|e|]; simpl in *.
  - rewrite Hm by discriminate. simpl. auto.
  - rewrite Hm by discriminate. reflexivity.
  - congruence.
Qed.

Lemma bind_not_OutOfFuel {A B : Type} (m : result A) (k : A -> result B) :
  m <> OutOfFuel -> (forall a, m = Ok a -> k a <> OutOfFuel) ->
  bind m k <> OutOfFuel.
Proof.
  intros Hm Hk. destruct m as [a|e|]; simpl; auto. discriminate.
Qed.

(** A run that ends gives the same outcome with one more unit of fuel. *)
Lemma fuel_stable fuel : forall k f lex,
  closure k f -> f fuel lex <> OutOfFuel -> f (S fuel) lex = f fuel lex.
Proof.
  induction fuel as [|fuel IH]; intros k f lex Hf H.
  { destruct Hf; now elim H. }
  destruct Hf; cbn [E E_while T T_while F] in H |- *.
  - apply bind_stable; auto.
    + apply (IH _ _ _ closure_T).
    + intros [t lex'] _. apply (IH _ _ _ (closure_E_while t)).
  - destruct (kind_in (fst (peek lex)) ["+"; "-"]); [|reflexivity].
    cbn [next] in H |- *. apply bind_stable; auto.
    + apply (IH _ _ _ closure_T).
    + intros [t lex'] _. apply (IH _ _ _ (closure_E_while _)).
  - apply bind_stable; auto.
    + apply (IH _ _ _ closure_F).
    + intros [t lex'] _. apply (IH _ _ _ (closure_T_while t)).
  - destruct (kind_in (fst (peek lex)) ["*"; "/"]); [|reflexivity].
    cbn [next] in H |- *. apply bind_stable; auto.
    + apply (IH _ _ _ closure_F).
    + intros [t lex'] _. apply (IH _ _ _ (closure_T_while _)).
  - cbv zeta in H |- *. destruct (fst (peek lex) =? "(")%string; [|reflexivity].
    cbn [next] in H |- *. apply bind_stable; auto.
    apply (IH _ _ _ closure_E).
Qed.

Lemma fuel_stable_le k f lex fuel fuel' :
  closure k f -> fuel <= fuel' -> f fuel lex <> OutOfFuel ->
  f fuel' lex = f fuel lex.
Proof.
  intros Hf Hle H. induction Hle as [|m Hle IH]; [reflexivity|].
  rewrite (fuel_stable _ _ _ _ Hf); congruence.
Qed.

(** Three units of fuel for each token that remains, and [k] more, are
    enough. *)
Lemma fuel_enough fuel : forall k f lex,
  closure k f -> 3 * remaining lex + k <= fuel -> f fuel lex <> OutOfFuel.
Proof.
  induction fuel as [|fuel IH]; intros k f lex Hf Hle.
  { destruct Hf; lia. }
  destruct Hf; cbn [E E_while T T_while F].
  - apply bind_not_OutOfFuel.
    + apply (IH _ _ _ closure_T). lia.
    + intros [t lex'] Ht. apply (IH _ _ _ (closure_E_while t)).
      pose proof (cursor_closure fuel _ _ lex closure_T) as Hc.
      rewrite Ht in Hc. apply cursor_remaining in Hc. lia.
  - destruct (kind_in (fst (peek lex)) ["+"; "-"]) eqn:Hk; [|discriminate].
    apply kind_in_range in Hk; [|reflexivity]. apply remaining_next in Hk.
    cbn [next snd] in Hk |- *. apply bind_not_OutOfFuel.
    + apply (IH _ _ _ closure_T). lia.
    + intros [t lex'] Ht. apply (IH _ _ _ (closure_E_while _)).
      pose proof (cursor_closure fuel _ _ {| tokens := tokens lex; pos := pos lex + 1 |}
                    closure_T) as Hc.
      rewrite Ht in Hc. apply cursor_remaining in Hc. lia.
  - apply bind_not_OutOfFuel.
    + apply (IH _ _ _ closure_F). lia.
    + intros [t lex'] Ht. apply (IH _ _ _ (closure_T_while t)).
      pose proof (cursor_closure fuel _ _ lex closure_F) as Hc.
      rewrite Ht in Hc. apply cursor_remaining in Hc. lia.
  - destruct (kind_in (fst (peek lex)) ["*"; "/"]) eqn:Hk; [|discriminate].
    apply kind_in_range in Hk; [|reflexivity]. apply remaining_next in Hk.
    cbn [next snd] in Hk |- *. apply bind_not_OutOfFuel.
    + apply (IH _ _ _ closure_F). lia.
    + intros [t lex'] Ht. apply (IH _ _ _ (closure_T_while _)).
      pose proof (cursor_closure fuel _ _ {| tokens := tokens lex; pos := pos lex + 1 |}
                    closure_F) as Hc.
      rewrite Ht in Hc. apply cursor_remaining in Hc. lia.
  - cbv zeta. destruct (fst (peek lex) =? "(")%string eqn:Hk.
    + assert (Hr : pos lex < List.length (tokens lex)).
      { apply peek_in_range. apply String.eqb_eq in Hk. rewrite Hk. discriminate. }
      apply remaining_next in Hr. cbn [next snd] in Hr |- *.
      apply bind_not_OutOfFuel.
      * apply (IH _ _ _ closure_E). lia.
      * intros [t lex'] _.
        destruct (negb (fst (peek lex') =? ")")%string); discriminate.
    + destruct (fst (peek lex) =? "NUMBER")%string; [discriminate|].
      destruct (fst (peek lex) =? "ID")%string; discriminate.
Qed.

(** With enough fuel the outcome is that of the budget-free reading. *)
Lemma fuel_agree k f lex fuel :
  closure k f -> 3 * remaining lex + k <= fuel ->
  f fuel lex = f (3 * remaining lex + k) lex.
Proof.
  intros Hf Hle. apply (fuel_stable_le _ _ _ _ _ Hf Hle).
  apply (fuel_enough _ _ _ _ Hf). lia.
Qed.


(** ** The equations of the source text

    The budget-free readings satisfy, line for line, the bodies of the
    closures [E], [T] and [F]. *)

Lemma bind_ext {A B : Type} (m : result A) (k k' : A -> result B) :
  (forall a, m = Ok a -> k a = k' a) -> bind m k = bind m k'.
Proof. intros H. destruct m; simpl; auto. Qed.

Lemma parseT_cursor lex : cursor_ok lex (parseT lex).
Proof. apply (cursor_closure _ _ _ _ closure_T). Qed.

Lemma parseF_cursor lex : cursor_ok lex (parseF lex).
Proof. apply (cursor_closure _ _ _ _ closure_F). Qed.

Lemma parseE_cursor lex : cursor_ok lex (parseE lex).
Proof. apply (cursor_closure _ _ _ _ closure_E). Qed.

Lemma parseE_eq lex :
  parseE lex = '(node, lex') <- parseT lex ;; parseE_while node lex'.
Proof.
  unfold parseE. replace (3 * remaining lex + 3) with (S (3 * remaining lex + 2)) by lia.
  cbn [E]. fold (parseT lex). apply bind_ext. intros [t lex'] Ht.
  pose proof (parseT_cursor lex) as Hc. rewrite Ht in Hc.
  apply cursor_remaining in Hc.
  apply (fuel_agree _ _ _ _ (closure_E_while t)). lia.
Qed.

Lemma parseE_while_eq node lex :
  parseE_while node lex =
  if kind_in (fst (peek lex)) ["+"; "-"] then
    '(rhs, lex2) <- parseT (snd (next lex)) ;;
    parseE_while (BINOP (fst (peek lex)) node rhs) lex2
  else Ok (node, lex).
Proof.
  unfold parseE_while at 1.
  replace (3 * remaining lex + 2) with (S (3 * remaining lex + 1)) by lia.
  cbn [E_while]. destruct (kind_in (fst (peek lex)) ["+"; "-"]) eqn:Hk; [|reflexivity].
  apply kind_in_range in Hk; [|reflexivity]. apply remaining_next in Hk.
  cbn [next snd fst] in Hk |- *.
  rewrite (fuel_agree _ _ _ _ closure_T) by lia.
  fold (parseT {| tokens := tokens lex; pos := pos lex + 1 |}).
  apply bind_ext. intros [t lex'] Ht.
  pose proof (parseT_cursor {| tokens := tokens lex; pos := pos lex + 1 |}) as Hc.
  rewrite Ht in Hc. apply cursor_remaining in Hc.
  apply (fuel_agree _ _ _ _ (closure_E_while _)). lia.
Qed.

Lemma parseT_eq lex :
  parseT lex = '(node, lex') <- parseF lex ;; parseT_while node lex'.
Proof.
  unfold parseT. replace (3 * remaining lex + 2) with (S (3 * remaining lex + 1)) by lia.
  cbn [T]. fold (parseF lex). apply bind_ext. intros [t lex'] Ht.
  pose proof (parseF_cursor lex) as Hc. rewrite Ht in Hc.
  apply cursor_remaining in Hc.
  apply (fuel_agree _ _ _ _ (closure_T_while t)). lia.
Qed.

Lemma parseT_while_eq node lex :
  parseT_while node lex =
  if kind_in (fst (peek lex)) ["*"; "/"] then
    '(rhs, lex2) <- parseF (snd (next lex)) ;;
    parseT_while (BINOP (fst (peek lex)) node rhs) lex2
  else Ok (node, lex).
Proof.
  unfold parseT_while at 1.
  replace (3 * remaining lex + 1) with (S (3 * remaining lex)) by lia.
  cbn [T_while]. destruct (kind_in (fst (peek lex)) ["*"; "/"]) eqn:Hk; [|reflexivity].
  apply kind_in_range in Hk; [|reflexivity]. apply remaining_next in Hk.
  cbn [next snd fst] in Hk |- *.
  rewrite (fuel_agree _ _ _ _ closure_F) by lia.
  fold (parseF {| tokens := tokens lex; pos := pos lex + 1 |}).
  apply bind_ext. intros [t lex'] Ht.
  pose proof (parseF_cursor {| tokens := tokens lex; pos := pos lex + 1 |}) as Hc.
  rewrite Ht in Hc. apply cursor_remaining in Hc.
  apply (fuel_agree _ _ _ _ (closure_T_while _)). lia.
Qed.

Lemma parseF_eq lex :
  parseF lex =
  if (fst (peek lex) =? "(")%string then
    '(node, lex') <- parseE (snd (next lex)) ;;
    if negb (fst (peek lex') =? ")")%string
    then Raise (SyntaxError Faltando_paren)
    else Ok (node, snd (next lex'))
  else if (fst (peek lex) =? "NUMBER")%string then
    Ok (Leaf "NUMBER" (snd (peek lex)), snd (next lex))
  else if (fst (peek lex) =? "ID")%string then
    Ok (Leaf "ID" (snd (peek lex)), snd (next lex))
  else Raise (SyntaxError (Token_inesperado (peek lex))).
Proof.
  unfold parseF.
  replace (3 * remaining lex + 1) with (S (3 * remaining lex)) by lia.
  cbn [F]. cbv zeta. destruct (fst (peek lex) =? "(")%string eqn:Hk; [|reflexivity].
  assert (Hr : pos lex < List.length (tokens lex)).
  { apply peek_in_range. apply String.eqb_eq in Hk. rewrite Hk. discriminate. }
  apply remaining_next in Hr. cbn [next snd] in Hr |- *.
  rewrite (fuel_agree _ _ _ _ closure_E) by lia. reflexivity.
Qed.

Lemma parse_expression_eq text :
  parse_expression text =
  lex <- Lexer_init text ;;
  '(tree, lex') <- parseE lex ;;
  if negb (fst (peek lex') =? "EOF")%string
  then Raise (SyntaxError Entrada_extra)
  else Ok tree.
Proof. reflexivity. Qed.

Lemma parse_expression_tokens text :
  parse_expression text =
  '(tree, lex') <- parseE {| tokens := Lexer_tokens text; pos := 0 |} ;;
  if negb (fst (peek lex') =? "EOF")%string
  then Raise (SyntaxError Entrada_extra)
  else Ok tree.
Proof. rewrite parse_expression_eq, Lexer_init_tokens. reflexivity. Qed.

Lemma parse_expression_parse_tokens text :
  parse_expression text = parse_tokens (Lexer_tokens text).
Proof. apply parse_expression_tokens. Qed.

(** ** Exceptions are not caught

    No closure has a [try]: what a call raises, every call that led to it
    raises too. *)

Lemma after_In m k c :
  In c (after m k) -> exists node lex, m = Ok (node, lex) /\ c = k node lex.
Proof.
  destruct m as [[node lex]| |]; simpl; try tauto.
  intros [<-|[]]. eauto.
Qed.

Lemma subcall_raise c c1 e :
  In c1 (subcalls c) -> run c1 = Raise e -> run c = Raise e.
Proof.
  destruct c as [lex|node lex|lex|node lex|lex]; cbn [subcalls run].
  - rewrite parseE_eq. intros [<-|H] Hr.
    + cbn [run] in Hr. now rewrite Hr.
    + apply after_In in H as (t & lex' & -> & ->). exact Hr.
  - rewrite parseE_while_eq.
    destruct (kind_in (fst (peek lex)) ["+"; "-"]); [|intros []].
    cbn [next snd fst]. intros [<-|H] Hr.
    + cbn [run] in Hr. now rewrite Hr.
    + apply after_In in H as (t & lex' & -> & ->). exact Hr.
  - rewrite parseT_eq. intros [<-|H] Hr.
    + cbn [run] in Hr. now rewrite Hr.
    + apply after_In in H as (t & lex' & -> & ->). exact Hr.
  - rewrite parseT_while_eq.
    destruct (kind_in (fst (peek lex)) ["*"; "/"]); [|intros []].
    cbn [next snd fst]. intros [<-|H] Hr.
    + cbn [run] in Hr. now rewrite Hr.
    + apply after_In in H as (t & lex' & -> & ->). exact Hr.
  - rewrite parseF_eq.
    destruct (fst (peek lex) =? "(")%string; [|intros []].
    intros [<-|[]] Hr. cbn [run] in Hr. now rewrite Hr.
Qed.

Lemma reaches_raise c c' e :
  reaches c c' -> run c' = Raise e -> run c = Raise e.
Proof.
  induction 1 as [c|c c1 c2 Hin _ IH]; auto.
  intros Hr. eapply subcall_raise; eauto.
Qed.

Lemma factor_position_raise text lex e :
  factor_position text lex -> parseF lex = Raise e ->
  parse_expression text = Raise e.
Proof.
  intros (lex0 & Hinit & Hreach) Hr.
  apply (reaches_raise _ _ e) in Hreach; [|exact Hr]. cbn [run] in Hreach.
  rewrite parse_expression_eq, Hinit. cbn [bind]. now rewrite Hreach.
Qed.

(** ** The loops fold to the left *)

Lemma E_while_turns lex ts lex' :
  turns ["+"; "-"] parseT lex ts lex' ->
  forall node, parseE_while node lex = Ok (fold_turns node ts, lex').
Proof.
  induction 1 as [lex Hk|lex rhs lex2 rest lex3 Hk Ht _ IH]; intros node.
  - rewrite parseE_while_eq, Hk. reflexivity.
  - rewrite parseE_while_eq, Hk, Ht. cbn [bind]. rewrite IH. reflexivity.
Qed.

Lemma T_while_turns lex ts lex' :
  turns ["*"; "/"] parseF lex ts lex' ->
  forall node, parseT_while node lex = Ok (fold_turns node ts, lex').
Proof.
  induction 1 as [lex Hk|lex rhs lex2 rest lex3 Hk Ht _ IH]; intros node.
  - rewrite parseT_while_eq, Hk. reflexivity.
  - rewrite parseT_while_eq, Hk, Ht. cbn [bind]. rewrite IH. reflexivity.
Qed.

Lemma while_turns_complete ops operand loop :
  kind_in "EOF" ops = false ->
  (forall lex, cursor_ok lex (operand lex)) ->
  (forall node lex,
      loop node lex =
      if kind_in (fst (peek lex)) ops then
        '(rhs, lex2) <- operand (snd (next lex)) ;;
        loop (BINOP (fst (peek lex)) node rhs) lex2
      else Ok (node, lex)) ->
  forall n lex, remaining lex <= n ->
  forall node t lex',
    loop node lex = Ok (t, lex') ->
    exists ts, turns ops operand lex ts lex' /\ t = fold_turns node ts.
Proof.
  intros Hops Hcur Heq. induction n as [|n IH]; intros lex Hn node t lex' H;
    rewrite Heq in H;
    destruct (kind_in (fst (peek lex)) ops) eqn:Hk.
  - apply kind_in_range in Hk; [|exact Hops]. unfold remaining in Hn. lia.
  - inversion H; subst. exists []. split; [now constructor | reflexivity].
  - destruct (operand (snd (next lex))) as [[rhs lex2]| |] eqn:Ho;
      try discriminate H.
    cbn [bind] in H.
    pose proof (Hcur (snd (next lex))) as Hc. rewrite Ho in Hc.
    apply cursor_remaining in Hc.
    apply kind_in_range in Hk as Hr; [|exact Hops]. apply remaining_next in Hr.
    apply IH in H as (ts & Hts & ->); [|lia].
    exists ((fst (peek lex), rhs) :: ts). split; [|reflexivity].
    econstructor; eauto.
  - inversion H; subst. exists []. split; [now constructor | reflexivity].
Qed.

Lemma E_while_turns_complete node lex t lex' :
  parseE_while node lex = Ok (t, lex') ->
  exists ts, turns ["+"; "-"] parseT lex ts lex' /\ t = fold_turns node ts.
Proof.
  apply (while_turns_complete ["+"; "-"] parseT parseE_while eq_refl
           parseT_cursor parseE_while_eq (remaining lex) lex (le_n _)).
Qed.

Lemma T_while_turns_complete node lex t lex' :
  parseT_while node lex = Ok (t, lex') ->
  exists ts, turns ["*"; "/"] parseF lex ts lex' /\ t = fold_turns node ts.
Proof.
  apply (while_turns_complete ["*"; "/"] parseF parseT_while eq_refl
           parseF_cursor parseT_while_eq (remaining lex) lex (le_n _)).
Qed.

(** * The claims *)

Lemma kind_in_two k a b : kind_in k [a; b] = true -> k = a \/ k = b.
Proof.
  unfold kind_in. cbn [existsb]. rewrite orb_false_r. intros H.
  apply orb_prop in H as [H|H]; apply String.eqb_eq in H; auto.
Qed.

Ltac split_kinds :=
  repeat match goal with
         | H : is_operand (?k, _) = true |- _ =>
             apply kind_in_two in H; cbn [fst] in H; destruct H; subst k
         | H : kind_in ?k [_; _] = true |- _ =>
             apply kind_in_two in H; destruct H; subst k
         end.

(** C1. Precedence comes from the layering of [E] over [T]:
    [parse_expression "a + b * c"] returns the tree of [a + (b * c)]; and
    whatever the operands and the operators of the two levels are, an
    additive operator followed by a multiplicative one gives a tree whose
    root is the additive operator and whose right child is the product. *)
Theorem precedence_by_layering :
  parse_expression "a + b * c" =
  Ok (BINOP "+" (Leaf "ID" "a") (BINOP "*" (Leaf "ID" "b") (Leaf "ID" "c")))
  /\
  (forall x y z add mul,
      is_operand x = true -> is_operand y = true -> is_operand z = true ->
      kind_in add ["+"; "-"] = true -> kind_in mul ["*"; "/"] = true ->
      parse_tokens [x; op_token add; y; op_token mul; z] =
      Ok (BINOP add (leaf x) (BINOP mul (leaf y) (leaf z)))).
Proof.
  split; [reflexivity|].
  intros [kx tx] [ky ty] [kz tz] add mul Hx Hy Hz Ha Hm.
  split_kinds; reflexivity.
Qed.

Lemma precedence_by_layering_witness :
  parse_tokens [("NUMBER", "1"); op_token "-"; ("ID", "x"); op_token "/";
                ("NUMBER", "2.5")] =
  Ok (BINOP "-" (leaf ("NUMBER", "1"))
        (BINOP "/" (leaf ("ID", "x")) (leaf ("NUMBER", "2.5")))).
Proof.
  apply (proj2 precedence_by_layering); reflexivity.
Defined.

(** C6. Parentheses override precedence: [parse_expression "(a + b) * c"]
    returns the tree of [(a + b) * c]; and whatever the operands and the
    operators are, a parenthesised sum followed by a multiplicative operator
    becomes the left child of the product. *)
Theorem parentheses_override_precedence :
  parse_expression "(a + b) * c" =
  Ok (BINOP "*" (BINOP "+" (Leaf "ID" "a") (Leaf "ID" "b")) (Leaf "ID" "c"))
  /\
  (forall x y z add mul,
      is_operand x = true -> is_operand y = true -> is_operand z = true ->
      kind_in add ["+"; "-"] = true -> kind_in mul ["*"; "/"] = true ->
      parse_tokens [op_token "("; x; op_token add; y; op_token ")";
                    op_token mul; z] =
      Ok (BINOP mul (BINOP add (leaf x) (leaf y)) (leaf z))).
Proof.
  split; [reflexivity|].
  intros [kx tx] [ky ty] [kz tz] add mul Hx Hy Hz Ha Hm.
  split_kinds; reflexivity.
Qed.

Lemma parentheses_override_precedence_witness :
  parse_tokens [op_token "("; ("ID", "n"); op_token "-"; ("NUMBER", "1");
                op_token ")"; op_token "/"; ("ID", "d")] =
  Ok (BINOP "/" (BINOP "-" (leaf ("ID", "n")) (leaf ("NUMBER", "1")))
        (leaf ("ID", "d"))).
Proof.
  apply (proj2 parentheses_override_precedence); reflexivity.
Defined.

(** C2. Operators of one level associate to the left:
    [parse_expression "a - b - c"] returns the tree of [(a - b) - c] and not
    that of [a - (b - c)].  In general a turn of the loop of [E] (of [T])
    goes on with the node built so far as the left operand of a new [BINOP];
    so a loop that ends returns the left fold of its turns over the node it
    started with, and every tree a loop returns is such a fold. *)
Theorem left_associative_fold :
  parse_expression "a - b - c" =
  Ok (BINOP "-" (BINOP "-" (Leaf "ID" "a") (Leaf "ID" "b")) (Leaf "ID" "c"))
  /\
  parse_expression "a - b - c" <>
  Ok (BINOP "-" (Leaf "ID" "a") (BINOP "-" (Leaf "ID" "b") (Leaf "ID" "c")))
  /\
  (forall node lex rhs lex2,
      kind_in (fst (peek lex)) ["+"; "-"] = true ->
      parseT (snd (next lex)) = Ok (rhs, lex2) ->
      parseE_while node lex =
      parseE_while (BINOP (fst (peek lex)) node rhs) lex2)
  /\
  (forall node lex rhs lex2,
      kind_in (fst (peek lex)) ["*"; "/"] = true ->
      parseF (snd (next lex)) = Ok (rhs, lex2) ->
      parseT_while node lex =
      parseT_while (BINOP (fst (peek lex)) node rhs) lex2)
  /\
  (forall node lex t lex',
      parseE_while node lex = Ok (t, lex') <->
      exists ts, turns ["+"; "-"] parseT lex ts lex' /\ t = fold_turns node ts)
  /\
  (forall node lex t lex',
      parseT_while node lex = Ok (t, lex') <->
      exists ts, turns ["*"; "/"] parseF lex ts lex' /\ t = fold_turns node ts).
Proof.
  split; [reflexivity|]. split; [discriminate|].
  split; [|split; [|split]].
  - intros node lex rhs lex2 Hk Ht.
    rewrite parseE_while_eq, Hk, Ht. reflexivity.
  - intros node lex rhs lex2 Hk Ht.
    rewrite parseT_while_eq, Hk, Ht. reflexivity.
  - intros node lex t lex'. split.
    + apply E_while_turns_complete.
    + intros (ts & Hts & ->). now apply E_while_turns.
  - intros node lex t lex'. split.
    + apply T_while_turns_complete.
    + intros (ts & Hts & ->). now apply T_while_turns.
Qed.

Lemma left_associative_fold_witness :
  let lex := {| tokens := Lexer_tokens "a - b - c"; pos := 1 |} in
  parseE_while (Leaf "ID" "a") lex =
  parseE_while (BINOP "-" (Leaf "ID" "a") (Leaf "ID" "b"))
    {| tokens := Lexer_tokens "a - b - c"; pos := 3 |}.
Proof.
  intros lex.
  apply (proj1 (proj2 (proj2 left_associative_fold))
           (Leaf "ID" "a") lex (Leaf "ID" "b")); reflexivity.
Defined.


(** C3. Whenever the parse of a text calls [F] in a state whose lookahead is
    an opening parenthesis, the enclosed expression is parsed, and the
    lookahead after it is not a closing parenthesis, [parse_expression]
    raises the SyntaxError of the missing parenthesis; so it does on
    ["(a + b"]. *)
Theorem missing_paren_raises :
  (forall text lex node lex',
      factor_position text lex ->
      fst (peek lex) = "(" ->
      parseE (snd (next lex)) = Ok (node, lex') ->
      fst (peek lex') <> ")" ->
      parse_expression text = Raise (SyntaxError Faltando_paren))
  /\ parse_expression "(a + b" = Raise (SyntaxError Faltando_paren).
Proof.
  split; [|reflexivity].
  intros text lex node lex' Hpos Hopen HE Hclose.
  apply (factor_position_raise _ _ _ Hpos).
  rewrite parseF_eq, Hopen, HE. cbn [String.eqb Ascii.eqb Bool.eqb bind].
  apply String.eqb_neq in Hclose. rewrite Hclose. reflexivity.
Qed.

Lemma missing_paren_raises_witness :
  parse_expression "2 * (x - 1 + y" = Raise (SyntaxError Faltando_paren).
Proof.
  pose (toks := Lexer_tokens "2 * (x - 1 + y").
  apply (proj1 missing_paren_raises "2 * (x - 1 + y"
           {| tokens := toks; pos := 2 |}
           (BINOP "+" (BINOP "-" (Leaf "ID" "x") (Leaf "NUMBER" "1"))
              (Leaf "ID" "y"))
           {| tokens := toks; pos := 8 |}).
  - exists {| tokens := toks; pos := 0 |}. split; [reflexivity|].
    apply reaches_sub with (c1 := CallT {| tokens := toks; pos := 0 |});
      [left; reflexivity|].
    apply reaches_sub
      with (c1 := CallT_while (Leaf "NUMBER" "2") {| tokens := toks; pos := 1 |});
      [right; left; reflexivity|].
    apply reaches_sub with (c1 := CallF {| tokens := toks; pos := 2 |});
      [left; reflexivity|].
    apply reaches_here.
  - reflexivity.
  - reflexivity.
  - discriminate.
Defined.



Lemma tokens_nth_not_EOF toks n :
  forallb token_ok toks = true -> n < List.length toks ->
  fst (nth n toks ("EOF", "")) <> "EOF".
Proof.
  intros Hok Hn. apply token_ok_not_EOF.
  rewrite forallb_forall in Hok. apply Hok. now apply nth_In.
Qed.

Lemma Lexer_init_inv text lex :
  Lexer_init text = Ok lex -> lex = {| tokens := Lexer_tokens text; pos := 0 |}.
Proof. rewrite Lexer_init_tokens. congruence. Qed.

(** C5. When the top-level call of [E] has returned, [parse_expression]
    looks at the lookahead: if a token is left it raises the SyntaxError of
    extra input, and only at the end of the input does it return the tree.
    ["a b"] raises that error; ["a +"] raises the error of the unexpected
    [("EOF", "")]. *)
Theorem trailing_input_raises :
  (forall text lex tree lex',
      Lexer_init text = Ok lex ->
      parseE lex = Ok (tree, lex') ->
      (pos lex' < List.length (tokens lex') ->
       parse_expression text = Raise (SyntaxError Entrada_extra)) /\
      (List.length (tokens lex') <= pos lex' ->
       parse_expression text = Ok tree))
  /\ parse_expression "a b" = Raise (SyntaxError Entrada_extra)
  /\ parse_expression "a +" = Raise (SyntaxError (Token_inesperado ("EOF", ""))).
Proof.
  split; [|split; reflexivity].
  intros text lex tree lex' Hinit HE.
  rewrite parse_expression_eq, Hinit. cbn [bind]. rewrite HE. cbn [bind].
  split; intros Hpos.
  - assert (Hk : fst (peek lex') <> "EOF").
    { unfold peek. apply Nat.ltb_lt in Hpos as Hlt. rewrite Hlt.
      apply tokens_nth_not_EOF; [|exact Hpos].
      pose proof (parseE_cursor lex) as Hc. rewrite HE in Hc.
      destruct Hc as [-> _]. apply Lexer_init_inv in Hinit. subst lex.
      apply Lexer_tokens_ok. }
    apply String.eqb_neq in Hk. now rewrite Hk.
  - rewrite (peek_EOF _ Hpos). reflexivity.
Qed.

Lemma trailing_input_raises_witness :
  parse_expression "1 + 2 )" = Raise (SyntaxError Entrada_extra).
Proof.
  pose (toks := Lexer_tokens "1 + 2 )").
  apply (proj1 trailing_input_raises "1 + 2 )"
           {| tokens := toks; pos := 0 |}
           (BINOP "+" (Leaf "NUMBER" "1") (Leaf "NUMBER" "2"))
           {| tokens := toks; pos := 3 |}); [reflexivity | reflexivity |].
  vm_compute. lia.
Defined.

(** C8. The lexer is total: for every text [Lexer(text)] is built without
    an exception, with the cursor at 0, and every token it holds is a NUMBER
    with the text of a number, an ID with the text of an identifier, or one
    of the six operator and parenthesis characters under its own name. *)
Theorem lexer_total :
  forall text,
    exists toks,
      Lexer_init text = Ok {| tokens := toks; pos := 0 |} /\
      forallb token_ok toks = true /\
      forallb (fun tok =>
                 kind_in (fst tok)
                   ["NUMBER"; "ID"; "+"; "-"; "*"; "/"; "("; ")"]) toks = true.
Proof.
  intros text. exists (Lexer_tokens text).
  split; [apply Lexer_init_tokens|].
  pose proof (Lexer_tokens_ok text) as Hok. split; [exact Hok|].
  rewrite forallb_forall in *. intros tok Hin.
  apply token_ok_kind. auto.
Qed.






(** ** White space and unrecognized characters between lexemes *)

Lemma Lexer_tokens_split_at_space u w v :
  all_space w = true -> w <> "" ->
  Lexer_tokens (u ++ w ++ v) = (Lexer_tokens u ++ Lexer_tokens v)%list.
Proof.
  intros Hw Hne. destruct w as [|c w]; [congruence|].
  cbn [all_space string_forallb] in Hw. apply andb_prop in Hw as [Hc Hw].
  cbn [append].
  rewrite (Lexer_tokens_separator _ (space_silent _ Hc)).
  now rewrite (Lexer_tokens_spaces _ _ Hw).
Qed.

Lemma Lexer_init_same_tokens text1 text2 :
  Lexer_tokens text1 = Lexer_tokens text2 -> Lexer_init text1 = Lexer_init text2.
Proof. intros H. rewrite !Lexer_init_tokens. now rewrite H. Qed.

Lemma Lexer_tokens_blank s : forall u,
  Lexer_tokens (u ++ blank_unrecognized s) = Lexer_tokens (u ++ s).
Proof.
  induction s as [|c s IH]; intros u; [reflexivity|].
  unfold blank_unrecognized in *. cbn [string_map].
  destruct (is_recognized c || (c =? ".")%char) eqn:Hc.
  - change (String c ?x) with (String c "" ++ x).
    rewrite <- !append_assoc. apply IH.
  - rewrite (Lexer_tokens_separator " "%char eq_refl).
    rewrite (Lexer_tokens_separator c (unrecognized_silent _ Hc)).
    f_equal. apply (IH "").
Qed.

(** C7, as the code has it.  The lexer makes no token of a character that is
    not a digit, an ASCII letter, an underscore, white space, a full stop or
    one of [+ - * / ( )], and such a character ends the lexeme before it:
    [parse_expression] behaves on every text as on the text with a space in
    the place of each such character.  [parse_expression "@x"] returns the
    leaf [("ID", "x")] and [parse_expression "a @ b"] raises the error of
    extra input. *)
Theorem unrecognized_characters_act_as_spaces :
  (forall text, Lexer_init (blank_unrecognized text) = Lexer_init text)
  /\
  (forall text,
      parse_expression (blank_unrecognized text) = parse_expression text)
  /\ parse_expression "@x" = Ok (Leaf "ID" "x")
  /\ parse_expression "a @ b" = Raise (SyntaxError Entrada_extra).
Proof.
  split; [|split; [|split; reflexivity]]; intros text.
  - apply Lexer_init_same_tokens. apply (Lexer_tokens_blank text "").
  - rewrite !parse_expression_parse_tokens.
    f_equal. apply (Lexer_tokens_blank text "").
Qed.

(** C7 as stated fails: erasing the unrecognized characters changes the
    outcome when the erased character stood between two lexemes that fuse
    (["a@b"] is two identifiers, ["ab"] one), and the full stop of a number
    is not discarded at all (["1.2"] is one number, not ["12"]). *)
Lemma erasing_unrecognized_changes_parse :
  erase_unrecognized "a@b" = "ab" /\
  parse_expression "a@b" = Raise (SyntaxError Entrada_extra) /\
  parse_expression (erase_unrecognized "a@b") = Ok (Leaf "ID" "ab") /\
  parse_expression "a@b" <> parse_expression (erase_unrecognized "a@b") /\
  parse_expression "1.2" <> parse_expression (erase_unrecognized "1.2").
Proof.
  repeat split; try reflexivity; vm_compute; discriminate.
Qed.

(** C9, as the code has it.  ["a+b"] and ["  a   +   b  "] parse to the same
    tree.  White space makes no token and ends the lexeme before it: a
    non-empty run of white space splits the token sequence in that of the
    text before it and that of the text after it, so one such run can be
    replaced by any other; and where the token sequence of a text is already
    split in this way, white space can be put in without changing the
    lexer that is built. *)
Theorem whitespace_between_lexemes :
  (parse_expression "a+b" = Ok (BINOP "+" (Leaf "ID" "a") (Leaf "ID" "b")) /\
   parse_expression "  a   +   b  " = parse_expression "a+b")
  /\
  (forall u w v,
      all_space w = true -> w <> "" ->
      Lexer_tokens (u ++ w ++ v) = (Lexer_tokens u ++ Lexer_tokens v)%list)
  /\
  (forall u w w' v,
      all_space w = true -> w <> "" -> all_space w' = true -> w' <> "" ->
      Lexer_init (u ++ w ++ v) = Lexer_init (u ++ w' ++ v) /\
      parse_expression (u ++ w ++ v) = parse_expression (u ++ w' ++ v))
  /\
  (forall u w v,
      all_space w = true ->
      Lexer_tokens (u ++ v) = (Lexer_tokens u ++ Lexer_tokens v)%list ->
      Lexer_init (u ++ w ++ v) = Lexer_init (u ++ v) /\
      parse_expression (u ++ w ++ v) = parse_expression (u ++ v)).
Proof.
  split; [split; reflexivity|].
  split; [exact Lexer_tokens_split_at_space|]. split.
  - intros u w w' v Hw Hne Hw' Hne'.
    assert (Heq : Lexer_tokens (u ++ w ++ v) = Lexer_tokens (u ++ w' ++ v)).
    { rewrite !Lexer_tokens_split_at_space; auto. }
    split; [now apply Lexer_init_same_tokens|].
    rewrite !parse_expression_parse_tokens. now rewrite Heq.
  - intros u w v Hw Hsplit.
    assert (Heq : Lexer_tokens (u ++ w ++ v) = Lexer_tokens (u ++ v)).
    { destruct w as [|c w]; [reflexivity|].
      rewrite Lexer_tokens_split_at_space; auto. discriminate. }
    split; [now apply Lexer_init_same_tokens|].
    rewrite !parse_expression_parse_tokens. now rewrite Heq.
Qed.

Lemma whitespace_between_lexemes_witness :
  Lexer_init ("(x" ++ "  " ++ "+ 1)") = Lexer_init ("(x" ++ "+ 1)") /\
  parse_expression ("(x" ++ "  " ++ "+ 1)") = parse_expression ("(x" ++ "+ 1)").
Proof.
  apply (proj2 (proj2 (proj2 whitespace_between_lexemes))); reflexivity.
Defined.

(** C9 as stated fails for removal: with the white space between the
    lexemes [a] and [b] of ["a b"] taken out, the lexer sees the single
    identifier [ab]. *)
Lemma removing_whitespace_fuses_lexemes :
  all_space " " = true /\
  Lexer_tokens ("a" ++ " " ++ "b") = [("ID", "a"); ("ID", "b")] /\
  Lexer_tokens ("a" ++ "b") = [("ID", "ab")] /\
  Lexer_tokens ("a" ++ " " ++ "b") <> Lexer_tokens ("a" ++ "b") /\
  parse_expression ("a" ++ " " ++ "b") <> parse_expression ("a" ++ "b").
Proof.
  repeat split; try reflexivity; vm_compute; discriminate.
Qed.


(** * The parser beyond the claims *)

(** ** What a successful call has consumed *)

Lemma bind_Ok_inv {A B : Type} (m : result A) (k : A -> result B) b :
  bind m k = Ok b -> exists a, m = Ok a /\ k a = Ok b.
Proof. destruct m as [a| |]; simpl; try discriminate. eauto. Qed.

Lemma skipn_nth {A : Type} (d : A) : forall n l,
  n < List.length l -> skipn n l = nth n l d :: skipn (S n) l.
Proof.
  induction n as [|n IH]; intros [|x l] H; simpl in *; try lia; auto.
  apply IH. lia.
Qed.

Lemma peek_nth lex :
  pos lex < List.length (tokens lex) ->
  peek lex = nth (pos lex) (tokens lex) ("EOF", "").
Proof. intros H. unfold peek. apply Nat.ltb_lt in H. now rewrite H. Qed.

Lemma peek_In lex :
  pos lex < List.length (tokens lex) -> In (peek lex) (tokens lex).
Proof. intros H. rewrite (peek_nth _ H). now apply nth_In. Qed.

Lemma consumes_refl lex : consumes lex [] lex.
Proof. unfold consumes. simpl. repeat split; lia. Qed.

Lemma consumes_next lex :
  pos lex < List.length (tokens lex) ->
  consumes lex [peek lex] (snd (next lex)).
Proof.
  intros H. unfold consumes, next. cbn [snd tokens pos List.length app].
  repeat split.
  rewrite (peek_nth _ H), Nat.add_1_r. now apply skipn_nth.
Qed.

Lemma consumes_trans a s1 b s2 c :
  consumes a s1 b -> consumes b s2 c -> consumes a (s1 ++ s2)%list c.
Proof.
  intros (Ht1 & Hp1 & Hs1) (Ht2 & Hp2 & Hs2). unfold consumes.
  rewrite Ht1 in *. repeat split; [congruence | |].
  - rewrite length_app. lia.
  - rewrite Hs1, Hs2, app_assoc. reflexivity.
Qed.

Lemma consumes_length lex seg lex' :
  consumes lex seg lex' -> seg <> [] ->
  pos lex < pos lex' /\ pos lex' <= List.length (tokens lex).
Proof.
  intros (_ & Hp & Hs) Hne.
  apply (f_equal (@List.length token)) in Hs.
  rewrite length_app, !length_skipn in Hs.
  destruct seg; [congruence|]. simpl in *. lia.
Qed.

Lemma paren_scan_app a : forall d b,
  paren_scan d (a ++ b) =
  match paren_scan d a with
  | Some d' => paren_scan d' b
  | None => None
  end.
Proof.
  induction a as [|tok a IH]; intros d b; simpl; auto.
  destruct (fst tok =? "(")%string; auto.
  destruct (fst tok =? ")")%string; auto.
  destruct d; auto.
Qed.

Lemma without_parens_app a b :
  without_parens (a ++ b) = (without_parens a ++ without_parens b)%list.
Proof. apply filter_app. Qed.

Lemma kind_in_four k a b c d :
  kind_in k [a; b; c; d] = true -> k = a \/ k = b \/ k = c \/ k = d.
Proof.
  unfold kind_in. cbn [existsb]. rewrite orb_false_r. intros H.
  repeat (apply orb_prop in H as [H|H]); apply String.eqb_eq in H; auto.
Qed.

Lemma binop_token tok :
  token_ok tok = true -> kind_in (fst tok) ["+"; "-"; "*"; "/"] = true ->
  op_token (fst tok) = tok.
Proof.
  destruct tok as [k text]. cbn [fst]. intros Hok Hk.
  apply kind_in_four in Hk as [-> | [-> | [-> | ->]]];
    apply String.eqb_eq in Hok; subst; reflexivity.
Qed.

Lemma In_token_ok toks tok :
  forallb token_ok toks = true -> In tok toks -> token_ok tok = true.
Proof. rewrite forallb_forall. auto. Qed.

Lemma parsed_stop node lex : parsed (Some node) lex node lex.
Proof.
  exists []. split; [apply consumes_refl|].
  split; [reflexivity|]. split; [discriminate|].
  split; [auto|]. intros _. simpl. now rewrite app_nil_r.
Qed.

Lemma parsed_then lex t1 lex1 t lex' :
  parsed None lex t1 lex1 -> parsed (Some t1) lex1 t lex' ->
  parsed None lex t lex'.
Proof.
  intros (s1 & Hc1 & Hb1 & Hne1 & Hw1 & Hi1) (s2 & Hc2 & Hb2 & _ & Hw2 & Hi2).
  exists (s1 ++ s2)%list. split; [eapply consumes_trans; eauto|].
  split; [intros d; now rewrite paren_scan_app, Hb1|].
  split; [intros _ Heq; apply app_eq_nil in Heq as [? _]; now apply Hne1|].
  split; [auto|]. intros Hok.
  destruct Hc1 as (Ht1 & _). rewrite Ht1 in Hi2.
  rewrite (Hi2 Hok). cbn [start_inorder]. rewrite (Hi1 Hok).
  now rewrite without_parens_app.
Qed.

Lemma parsed_turn node lex rhs lex2 t lex' :
  kind_in (fst (peek lex)) ["+"; "-"; "*"; "/"] = true ->
  parsed None (snd (next lex)) rhs lex2 ->
  parsed (Some (BINOP (fst (peek lex)) node rhs)) lex2 t lex' ->
  parsed (Some node) lex t lex'.
Proof.
  intros Hk (s1 & Hc1 & Hb1 & _ & Hw1 & Hi1) (s2 & Hc2 & Hb2 & _ & Hw2 & Hi2).
  assert (Hr : pos lex < List.length (tokens lex))
    by (eapply kind_in_range; [|exact Hk]; reflexivity).
  assert (Hscan : forall d, paren_scan d [peek lex] = Some d).
  { intros d. cbn [paren_scan].
    apply kind_in_four in Hk as [-> | [-> | [-> | ->]]]; reflexivity. }
  assert (Hwp : without_parens [peek lex] = [peek lex]).
  { unfold without_parens, is_paren. cbn [filter].
    apply kind_in_four in Hk as [-> | [-> | [-> | ->]]]; reflexivity. }
  exists ([peek lex] ++ s1 ++ s2)%list.
  split; [eapply consumes_trans; [now apply consumes_next|];
          eapply consumes_trans; eauto|].
  split; [intros d; now rewrite paren_scan_app, Hscan, paren_scan_app, Hb1|].
  split; [discriminate|].
  split.
  - cbn [start_wf]. intros Hn. apply Hw2. cbn [start_wf wf_tree].
    rewrite Hk, Hn. cbn [andb]. now apply Hw1.
  - intros Hok. cbn [start_inorder].
    destruct Hc1 as (Ht1 & _). cbn [next snd tokens] in Ht1, Hi1.
    rewrite Ht1 in Hi2. rewrite (Hi2 Hok). cbn [start_inorder inorder].
    rewrite (Hi1 Hok). cbn [start_inorder app].
    change (peek lex :: s1 ++ s2)%list with ([peek lex] ++ (s1 ++ s2))%list.
    rewrite !without_parens_app, Hwp.
    rewrite (binop_token (peek lex)); auto.
    + rewrite <- app_assoc. reflexivity.
    + eapply In_token_ok; eauto. now apply peek_In.
Qed.

Lemma parsed_paren lex t lex2 :
  fst (peek lex) = "(" ->
  parsed None (snd (next lex)) t lex2 ->
  fst (peek lex2) = ")" ->
  parsed None lex t (snd (next lex2)).
Proof.
  intros Hopen (s1 & Hc1 & Hb1 & _ & Hw1 & Hi1) Hclose.
  assert (Hr : pos lex < List.length (tokens lex))
    by (apply peek_in_range; rewrite Hopen; discriminate).
  assert (Hr2 : pos lex2 < List.length (tokens lex2))
    by (apply peek_in_range; rewrite Hclose; discriminate).
  exists ([peek lex] ++ s1 ++ [peek lex2])%list.
  split; [eapply consumes_trans; [now apply consumes_next|];
          eapply consumes_trans; [exact Hc1 | now apply consumes_next]|].
  split.
  { intros d. cbn [app paren_scan]. rewrite Hopen. cbn [String.eqb Ascii.eqb Bool.eqb].
    rewrite paren_scan_app, Hb1. cbn [paren_scan]. rewrite Hclose. reflexivity. }
  split; [discriminate|]. split; [auto|].
  intros Hok. cbn [next snd tokens] in Hi1. rewrite (Hi1 Hok).
  cbn [start_inorder app]. unfold without_parens at 2.
  cbn [filter]. unfold is_paren at 1. rewrite Hopen. cbn [kind_in existsb String.eqb Ascii.eqb Bool.eqb orb negb].
  fold (without_parens (s1 ++ [peek lex2])).
  rewrite without_parens_app. unfold without_parens at 3, is_paren.
  cbn [filter]. rewrite Hclose. cbn. now rewrite app_nil_r.
Qed.

Lemma parsed_leaf lex :
  is_operand (peek lex) = true ->
  parsed None lex (Leaf (fst (peek lex)) (snd (peek lex))) (snd (next lex)).
Proof.
  intros Hk. unfold is_operand in Hk.
  assert (Hr : pos lex < List.length (tokens lex))
    by (eapply kind_in_range; [|exact Hk]; reflexivity).
  exists [peek lex]. split; [now apply consumes_next|].
  split.
  { intros d. cbn [paren_scan].
    apply kind_in_two in Hk as [->| ->]; reflexivity. }
  split; [discriminate|]. split; [intros _; exact Hk|].
  intros _. cbn [start_inorder inorder app]. unfold without_parens, is_paren.
  cbn [filter]. rewrite <- surjective_pairing.
  apply kind_in_two in Hk as [->| ->]; reflexivity.
Qed.

Lemma kind_in_sub2 k a b :
  In a ["+"; "-"; "*"; "/"] -> In b ["+"; "-"; "*"; "/"] ->
  kind_in k [a; b] = true -> kind_in k ["+"; "-"; "*"; "/"] = true.
Proof.
  intros Ha Hb H. apply kind_in_two in H as [-> | ->].
  - simpl in Ha. repeat (destruct Ha as [<-|Ha]; [reflexivity|]). elim Ha.
  - simpl in Hb. repeat (destruct Hb as [<-|Hb]; [reflexivity|]). elim Hb.
Qed.

Lemma closure_parsed fuel : forall o f lex t lex',
  closure_of o f -> f fuel lex = Ok (t, lex') -> parsed o lex t lex'.
Proof.
  induction fuel as [|fuel IH]; intros o f lex t lex' Hf H.
  { destruct Hf; discriminate H. }
  destruct Hf; cbn [E E_while T T_while F] in H.
  - apply bind_Ok_inv in H as ([t1 lex1] & H1 & H2).
    eapply parsed_then.
    + apply (IH _ _ _ _ _ closure_of_T H1).
    + apply (IH _ _ _ _ _ (closure_of_E_while t1) H2).
  - destruct (kind_in (fst (peek lex)) ["+"; "-"]) eqn:Hk.
    + cbn [next fst] in H. apply bind_Ok_inv in H as ([rhs lex2] & H1 & H2).
      eapply parsed_turn.
      * eapply kind_in_sub2; [| |exact Hk]; simpl; auto.
      * apply (IH _ _ _ _ _ closure_of_T H1).
      * apply (IH _ _ _ _ _ (closure_of_E_while _) H2).
    + inversion H; subst. apply parsed_stop.
  - apply bind_Ok_inv in H as ([t1 lex1] & H1 & H2).
    eapply parsed_then.
    + apply (IH _ _ _ _ _ closure_of_F H1).
    + apply (IH _ _ _ _ _ (closure_of_T_while t1) H2).
  - destruct (kind_in (fst (peek lex)) ["*"; "/"]) eqn:Hk.
    + cbn [next fst] in H. apply bind_Ok_inv in H as ([rhs lex2] & H1 & H2).
      eapply parsed_turn.
      * eapply kind_in_sub2; [| |exact Hk]; simpl; auto.
      * apply (IH _ _ _ _ _ closure_of_F H1).
      * apply (IH _ _ _ _ _ (closure_of_T_while _) H2).
    + inversion H; subst. apply parsed_stop.
  - cbv zeta in H. destruct (fst (peek lex) =? "(")%string eqn:Hopen.
    + cbn [next] in H. apply bind_Ok_inv in H as ([t1 lex1] & H1 & H2).
      destruct (fst (peek lex1) =? ")")%string eqn:Hclose;
        [|discriminate H2].
      cbn [negb] in H2. inversion H2; subst.
      apply String.eqb_eq in Hopen, Hclose.
      apply (parsed_paren lex t lex1 Hopen); [|exact Hclose].
      apply (IH _ _ _ _ _ closure_of_E H1).
    + destruct (fst (peek lex) =? "NUMBER")%string eqn:Hnum.
      * inversion H; subst. apply String.eqb_eq in Hnum.
        rewrite <- Hnum. apply parsed_leaf.
        unfold is_operand. now rewrite Hnum.
      * destruct (fst (peek lex) =? "ID")%string eqn:Hid; [|discriminate H].
        inversion H; subst. apply String.eqb_eq in Hid.
        rewrite <- Hid. apply parsed_leaf.
        unfold is_operand. now rewrite Hid.
Qed.

Lemma parse_expression_Ok_inv text t :
  parse_expression text = Ok t ->
  exists lex',
    parseE {| tokens := Lexer_tokens text; pos := 0 |} = Ok (t, lex') /\
    List.length (Lexer_tokens text) <= pos lex'.
Proof.
  rewrite parse_expression_tokens. intros H.
  apply bind_Ok_inv in H as ([t' lex'] & HE & H). exists lex'.
  destruct (negb (fst (peek lex') =? "EOF")%string) eqn:Hk; [discriminate H|].
  inversion H; subst. split; [exact HE|].
  apply negb_false_iff, String.eqb_eq in Hk.
  pose proof (parseE_cursor {| tokens := Lexer_tokens text; pos := 0 |}) as Hc.
  rewrite HE in Hc. destruct Hc as [Ht _]. cbn [tokens] in Ht.
  destruct (Nat.lt_ge_cases (pos lex') (List.length (Lexer_tokens text)))
    as [Hlt|Hge]; [|exact Hge].
  exfalso. rewrite <- Ht in Hlt. rewrite (peek_nth _ Hlt) in Hk.
  revert Hk. apply tokens_nth_not_EOF; [|exact Hlt].
  rewrite Ht. apply Lexer_tokens_ok.
Qed.

Lemma parse_expression_parsed text t :
  parse_expression text = Ok t ->
  exists lex',
    parsed None {| tokens := Lexer_tokens text; pos := 0 |} t lex' /\
    List.length (Lexer_tokens text) <= pos lex'.
Proof.
  intros H. apply parse_expression_Ok_inv in H as (lex' & HE & Hend).
  exists lex'. split; [|exact Hend].
  apply (closure_parsed _ _ _ _ _ _ closure_of_E HE).
Qed.

Lemma consumes_all toks seg lex' :
  consumes {| tokens := toks; pos := 0 |} seg lex' ->
  List.length toks <= pos lex' -> seg = toks.
Proof.
  intros (_ & _ & Hs) Hend. cbn [tokens pos skipn] in Hs.
  rewrite (skipn_all2 toks Hend), app_nil_r in Hs. auto.
Qed.

(** ** What a call can raise *)






(** ** Properties of a parse *)

(** X1. Every tree the parser returns, on any token list, has the shape of
    the data model: its leaves are NUMBER or ID tuples and each inner node
    carries one of the four operators. *)
Theorem parse_result_well_formed :
  forall toks t, parse_tokens toks = Ok t -> wf_tree t = true.
Proof.
  intros toks t H. unfold parse_tokens in H.
  apply bind_Ok_inv in H as ([t' lex'] & HE & H).
  destruct (negb (fst (peek lex') =? "EOF")%string); [discriminate H|].
  inversion H; subst.
  apply (closure_parsed _ _ _ _ _ _ closure_of_E) in HE
    as (seg & _ & _ & _ & Hwf & _).
  now apply Hwf.
Qed.

Lemma parse_result_well_formed_witness :
  wf_tree (BINOP "/" (Leaf "NUMBER" "1") (Leaf "ID" "x")) = true.
Proof.
  apply (parse_result_well_formed
           [("NUMBER", "1"); op_token "/"; ("ID", "x")]).
  reflexivity.
Defined.

(** X2. A successful parse keeps every token in its place: the tokens of the
    tree, read from left to right, are the tokens of the text without the
    parentheses.  Nothing is dropped, invented or reordered. *)
Theorem parse_keeps_token_order :
  forall text t,
    parse_expression text = Ok t ->
    inorder t = without_parens (Lexer_tokens text).
Proof.
  intros text t H.
  apply parse_expression_parsed in H
    as (lex' & (seg & Hc & _ & _ & _ & Hin) & Hend).
  rewrite (Hin (Lexer_tokens_ok text)).
  now rewrite (consumes_all _ _ _ Hc Hend).
Qed.

Lemma parse_keeps_token_order_witness :
  inorder (BINOP "*" (BINOP "+" (Leaf "ID" "a") (Leaf "NUMBER" "2"))
             (Leaf "ID" "c")) =
  without_parens (Lexer_tokens "(a + 2) * c").
Proof.
  apply (parse_keeps_token_order "(a + 2) * c"). reflexivity.
Defined.

(** X3. A text that parses has balanced parentheses: scanning its tokens
    from nesting depth 0 never meets a closing parenthesis without a
    partner and ends at depth 0. *)
Theorem parse_success_balanced :
  forall text t,
    parse_expression text = Ok t ->
    paren_scan 0 (Lexer_tokens text) = Some 0.
Proof.
  intros text t H.
  apply parse_expression_parsed in H
    as (lex' & (seg & Hc & Hb & _) & Hend).
  rewrite <- (consumes_all _ _ _ Hc Hend). apply Hb.
Qed.

Lemma parse_success_balanced_witness :
  paren_scan 0 (Lexer_tokens "((a) * (b - (1)))") = Some 0.
Proof.
  apply (parse_success_balanced "((a) * (b - (1)))"
           (BINOP "*" (Leaf "ID" "a")
              (BINOP "-" (Leaf "ID" "b") (Leaf "NUMBER" "1")))).
  reflexivity.
Defined.

(** X4. A call of [E], [T] or [F] that returns has left the token list as
    it was and has moved the cursor forward by at least one token, never
    beyond the end of the list. *)
Theorem closures_consume_tokens :
  forall lex t lex',
    parseE lex = Ok (t, lex') \/ parseT lex = Ok (t, lex') \/
    parseF lex = Ok (t, lex') ->
    tokens lex' = tokens lex /\
    pos lex < pos lex' /\ pos lex' <= List.length (tokens lex).
Proof.
  intros lex t lex' H.
  assert (Hp : parsed None lex t lex').
  { destruct H as [H|[H|H]].
    - apply (closure_parsed _ _ _ _ _ _ closure_of_E H).
    - apply (closure_parsed _ _ _ _ _ _ closure_of_T H).
    - apply (closure_parsed _ _ _ _ _ _ closure_of_F H). }
  destruct Hp as (seg & Hc & _ & Hne & _).
  split; [apply Hc|]. apply (consumes_length _ _ _ Hc). now apply Hne.
Qed.

Lemma closures_consume_tokens_witness :
  let lex := {| tokens := Lexer_tokens "2 * (x + 1) - y"; pos := 2 |} in
  let lex' := {| tokens := Lexer_tokens "2 * (x + 1) - y"; pos := 7 |} in
  tokens lex' = tokens lex /\
  pos lex < pos lex' /\ pos lex' <= List.length (tokens lex).
Proof.
  intros lex lex'.
  apply (closures_consume_tokens lex
           (BINOP "+" (Leaf "ID" "x") (Leaf "NUMBER" "1")) lex').
  right; right. reflexivity.
Defined.



(** * [simulate_dfa] *)

Lemma span_not_whole p s :
  string_forallb p s = false -> snd (span p s) <> "".
Proof.
  induction s as [|c s IH]; simpl; [discriminate|].
  destruct (p c); simpl; [|discriminate].
  intros H. specialize (IH H). destruct (span p s); auto.
Qed.

Lemma dfa_loop_one s :
  dfa_loop 1%Z s = if string_forallb is_ident_char s then 1%Z else (-1)%Z.
Proof.
  induction s as [|c s IH]; [reflexivity|].
  cbn [dfa_loop string_forallb Z.eqb andb].
  destruct (is_ident_char c); [exact IH | reflexivity].
Qed.

Lemma is_ident_text_cons c s :
  is_ident_text (String c s) = is_ident_start c && string_forallb is_ident_char s.
Proof.
  unfold is_ident_text. cbn [re_ident].
  destruct (is_ident_start c); [|reflexivity]. cbn [andb].
  destruct (string_forallb is_ident_char s) eqn:Hall.
  - now rewrite (span_whole _ _ Hall).
  - pose proof (span_not_whole _ _ Hall) as Hne.
    destruct (span is_ident_char s) as [tl rest]. cbn [snd] in Hne.
    destruct rest; [congruence | reflexivity].
Qed.

(** The automaton and the identifier pattern of the lexers agree. *)
Lemma simulate_dfa_ident_text s : simulate_dfa s = is_ident_text s.
Proof.
  destruct s as [|c s]; [reflexivity|].
  rewrite is_ident_text_cons. unfold simulate_dfa.
  cbn [dfa_loop Z.eqb andb String.length]. rewrite andb_true_r.
  destruct (is_ident_start c); [|reflexivity].
  rewrite dfa_loop_one. cbn [andb].
  destruct (string_forallb is_ident_char s); reflexivity.
Qed.

(** X6. [simulate_dfa] accepts exactly the strings of its docstring's
    pattern: a letter or underscore followed by letters, digits and
    underscores.  The empty string is rejected. *)
Theorem simulate_dfa_accepts_identifiers :
  forall s,
    simulate_dfa s = true <->
    exists c tl,
      s = String c tl /\ is_ident_start c = true /\
      string_forallb is_ident_char tl = true.
Proof.
  intros s. rewrite simulate_dfa_ident_text. split.
  - destruct s as [|c tl]; [discriminate|].
    rewrite is_ident_text_cons. intros H. apply andb_prop in H as [Hc Htl].
    exists c, tl. auto.
  - intros (c & tl & -> & Hc & Htl).
    rewrite is_ident_text_cons, Hc, Htl. reflexivity.
Qed.

Lemma simulate_dfa_accepts_identifiers_witness :
  exists c tl,
    "_tmp1" = String c tl /\ is_ident_start c = true /\
    string_forallb is_ident_char tl = true.
Proof.
  apply (proj1 (simulate_dfa_accepts_identifiers "_tmp1")). reflexivity.
Defined.

Lemma ident_start_not_space c : is_ident_start c = true -> is_space c = false.
Proof. ascii_cases c. Qed.

Lemma ident_start_not_digit c : is_ident_start c = true -> is_digit c = false.
Proof. ascii_cases c. Qed.

Lemma re_number_not_digit c s : is_digit c = false -> re_number (String c s) = None.
Proof. intros H. unfold re_number. cbn [span]. now rewrite H. Qed.

Lemma Lexer_tokens_nil : Lexer_tokens "" = [].
Proof. reflexivity. Qed.


(** * [pretty_tree] *)


Lemma pad_add n m : pad (n + m) = pad n ++ pad m.
Proof.
  induction n as [|n IH]; [reflexivity|].
  cbn [Nat.add pad]. rewrite IH. reflexivity.
Qed.













Lemma output_map_print_then f line out :
  output_map f (print_then line out) = print_then (f line) (output_map f out).
Proof. destruct out; reflexivity. Qed.

Lemma output_map_output_then f out1 out2 :
  output_map f (output_then out1 out2) =
  output_then (output_map f out1) (output_map f out2).
Proof.
  destruct out1, out2; cbn [output_map output_then]; now rewrite ?map_app.
Qed.

Lemma pretty_tree_shift t : forall n m,
  pretty_tree t (n + m) = output_map (append (pad n)) (pretty_tree t m).
Proof.
  induction t as [kind text|op l IHl r IHr]; intros n m; cbn [pretty_tree].
  - destruct (kind =? "BINOP")%string; [reflexivity|].
    cbn [output_map map]. now rewrite pad_add, append_assoc.
  - rewrite output_map_print_then, output_map_output_then.
    rewrite <- !Nat.add_assoc, IHl, IHr, pad_add, append_assoc. reflexivity.
Qed.

(** X10. Indentation is relative: printing a tree at [indent] gives what
    printing it at 0 gives, with [indent] more pairs of spaces in front of
    every line, and raises in the same cases. *)
Theorem pretty_tree_indent :
  forall t indent,
    pretty_tree t indent =
    output_map (append (pad indent)) (pretty_tree t 0).
Proof.
  intros t indent. rewrite <- (pretty_tree_shift t indent 0).
  now rewrite Nat.add_0_r.
Qed.

(** * [tokenize] *)

(** ** The master pattern *)

Lemma prefix_drop p : forall s,
  prefix p s = true -> s = p ++ string_drop (String.length p) s.
Proof.
  induction p as [|a p IH]; intros s H; [reflexivity|].
  destruct s as [|b s]; [discriminate H|]. cbn [prefix] in H.
  destruct (ascii_dec a b) as [->|]; [|discriminate H].
  cbn [String.length string_drop append]. f_equal. now apply IH.
Qed.

Lemma re_literal_inv lit s v rest :
  re_literal lit s = Some (v, rest) -> v = lit /\ s = lit ++ rest.
Proof.
  unfold re_literal. destruct (prefix lit s) eqn:Hp; [|discriminate].
  intros H; inversion H; subst. split; [reflexivity|]. now apply prefix_drop.
Qed.

Lemma re_literals_inv lits : forall s v rest,
  re_literals lits s = Some (v, rest) -> In v lits /\ s = v ++ rest.
Proof.
  induction lits as [|lit lits IH]; intros s v rest H; [discriminate H|].
  cbn [re_literals] in H.
  destruct (re_literal lit s) as [[v' r']|] eqn:Hl.
  - inversion H; subst. apply re_literal_inv in Hl as [-> ->].
    split; [now left | reflexivity].
  - apply IH in H as [Hin ->]. split; [now right | reflexivity].
Qed.

Lemma re_number_None_inv c s : re_number (String c s) = None -> is_digit c = false.
Proof.
  unfold re_number. cbn [span]. destruct (is_digit c); [|reflexivity].
  destruct (span is_digit s) as [int r].
  destruct r as [|a r1]; [discriminate|].
  destruct (a =? ".")%char; [|discriminate].
  destruct (span is_digit r1) as [[|f frac] r2]; discriminate.
Qed.

Lemma re_ident_None_inv c s : re_ident (String c s) = None -> is_ident_start c = false.
Proof.
  cbn [re_ident]. destruct (is_ident_start c); [|reflexivity].
  destruct (span is_ident_char s); discriminate.
Qed.

Lemma re_skip_None_inv c s : re_skip (String c s) = None -> is_blank c = false.
Proof.
  unfold re_skip. cbn [span]. destruct (is_blank c); [|reflexivity].
  destruct (span is_blank s); discriminate.
Qed.

Lemma is_operator_cases c :
  is_operator c = true ->
  In c ["+"; "-"; "*"; "/"; "("; ")"]%char.
Proof. ascii_cases c; simpl; tauto. Qed.

Lemma prefix_nil s : prefix "" s = true.
Proof. destruct s; reflexivity. Qed.

Lemma re_literal_single c s :
  re_literal (String c "") (String c s) = Some (String c "", s).
Proof.
  unfold re_literal. cbn [prefix].
  destruct (ascii_dec c c) as [_|Hne]; [|now elim Hne].
  now rewrite prefix_nil.
Qed.

Lemma re_literals_None lits s :
  re_literals lits s = None ->
  forall lit, In lit lits -> re_literal lit s = None.
Proof.
  induction lits as [|l lits IH]; intros H lit Hin; [elim Hin|].
  cbn [re_literals] in H. destruct (re_literal l s) eqn:Hl; [discriminate H|].
  destruct Hin as [<-|Hin]; auto.
Qed.

Lemma no_literal_not_operator c s :
  re_literals OP_literals (String c s) = None ->
  re_literal "(" (String c s) = None ->
  re_literal ")" (String c s) = None ->
  is_operator c = false.
Proof.
  intros Hop Hl Hr. destruct (is_operator c) eqn:Hc; [|reflexivity].
  pose proof (re_literals_None _ _ Hop (String c "")) as Hlit.
  rewrite re_literal_single in Hlit.
  apply is_operator_cases in Hc. simpl in Hc.
  destruct Hc as [<-|[<-|[<-|[<-|[<-|[<-|[]]]]]]];
    try (rewrite re_literal_single in Hl; discriminate Hl);
    try (rewrite re_literal_single in Hr; discriminate Hr);
    specialize (Hlit ltac:(simpl; tauto)); discriminate Hlit.
Qed.


Lemma MASTER_RE_match_spec s kind v rest :
  MASTER_RE_match s = Some (kind, v, rest) -> master_match s kind v rest.
Proof.
  unfold MASTER_RE_match, TOKEN_SPEC. cbn [first_alternative].
  destruct (re_number s) as [[x r]|] eqn:Hnum.
  { intros H; inversion H; subst. now apply mm_NUMBER. }
  destruct (re_ident s) as [[x r]|] eqn:Hid.
  { intros H; inversion H; subst. now apply mm_ID. }
  destruct (re_literals OP_literals s) as [[x r]|] eqn:Hop.
  { intros H; inversion H; subst. apply re_literals_inv in Hop as [Hin ->].
    apply mm_literal; [|reflexivity].
    apply in_or_app. left. now apply in_map. }
  destruct (re_literal "(" s) as [[x r]|] eqn:Hl.
  { intros H; inversion H; subst. apply re_literal_inv in Hl as [-> ->].
    apply mm_literal; [|reflexivity]. apply in_or_app. right. simpl. tauto. }
  destruct (re_literal ")" s) as [[x r]|] eqn:Hr.
  { intros H; inversion H; subst. apply re_literal_inv in Hr as [-> ->].
    apply mm_literal; [|reflexivity]. apply in_or_app. right. simpl. tauto. }
  destruct (re_literal ";" s) as [[x r]|] eqn:Hsemi.
  { intros H; inversion H; subst. apply re_literal_inv in Hsemi as [-> ->].
    apply mm_literal; [|reflexivity]. apply in_or_app. right. simpl. tauto. }
  destruct (re_literal "," s) as [[x r]|] eqn:Hcomma.
  { intros H; inversion H; subst. apply re_literal_inv in Hcomma as [-> ->].
    apply mm_literal; [|reflexivity]. apply in_or_app. right. simpl. tauto. }
  destruct (re_skip s) as [[x r]|] eqn:Hskip.
  { intros H. injection H as <- <- <-. unfold re_skip in Hskip.
    pose proof (span_split is_blank s) as Hs.
    pose proof (span_prefix_all is_blank s) as Hall.
    destruct (span is_blank s) as [[|b bs] r']; [discriminate|].
    injection Hskip as <- <-. cbn [fst snd] in *.
    apply mm_SKIP; [discriminate | exact Hall | exact Hs]. }
  destruct (re_any s) as [[x r]|] eqn:Hany; [|discriminate].
  intros H; inversion H; subst.
  apply re_any_suffix in Hany as (c & -> & ->).
  apply mm_MISMATCH; [reflexivity | | | |].
  - now apply re_number_None_inv in Hnum.
  - now apply re_ident_None_inv in Hid.
  - now apply re_skip_None_inv in Hskip.
  - eapply no_literal_not_operator; eauto.
Qed.

Lemma literal_table_nonempty k v : In (k, v) literal_table -> v <> "".
Proof.
  intros H. simpl in H.
  repeat (destruct H as [H|H]; [inversion H; discriminate|]). elim H.
Qed.

Lemma master_match_suffix s kind v rest :
  master_match s kind v rest -> v <> "" /\ s = v ++ rest.
Proof.
  intros [v0 r0 H|v0 r0 _ H|k v0 r0 Hin ->|v0 r0 Hne _ ->|c r0 -> _ _ _ _].
  - now apply re_number_suffix.
  - now apply re_ident_suffix.
  - split; [eapply literal_table_nonempty; eauto | reflexivity].
  - auto.
  - split; [discriminate | reflexivity].
Qed.

Lemma MASTER_RE_match_suffix s kind v rest :
  MASTER_RE_match s = Some (kind, v, rest) -> proper_suffix rest s.
Proof.
  intros H. apply MASTER_RE_match_spec, master_match_suffix in H as [Hne ->].
  exists v. auto.
Qed.

(** Every non-empty text has a match at its start. *)
Lemma MASTER_RE_match_total c s : MASTER_RE_match (String c s) <> None.
Proof.
  unfold MASTER_RE_match, TOKEN_SPEC. cbn [first_alternative].
  destruct (re_number _) as [[? ?]|]; [discriminate|].
  destruct (re_ident _) as [[? ?]|]; [discriminate|].
  destruct (re_literals _ _) as [[? ?]|]; [discriminate|].
  destruct (re_literal "(" _) as [[? ?]|]; [discriminate|].
  destruct (re_literal ")" _) as [[? ?]|]; [discriminate|].
  destruct (re_literal ";" _) as [[? ?]|]; [discriminate|].
  destruct (re_literal "," _) as [[? ?]|]; [discriminate|].
  destruct (re_skip _) as [[? ?]|] eqn:Hskip; [discriminate|].
  apply re_skip_None_inv in Hskip. cbn [re_any].
  assert (Hdot : is_dot c = true) by (revert Hskip; ascii_cases c).
  rewrite Hdot. discriminate.
Qed.

(** ** The loop of [tokenize] *)

Lemma MASTER_RE_finditer_from_skip pre rest :
  MASTER_RE_finditer_from (String.length pre) (pre ++ rest) =
  MASTER_RE_finditer_from 0 rest.
Proof. induction pre as [|c pre IH]; simpl; auto. Qed.

Lemma MASTER_RE_finditer_eq s :
  MASTER_RE_finditer s =
  match MASTER_RE_match s with
  | Some (kind, v, rest) => (kind, v) :: MASTER_RE_finditer rest
  | None => []
  end.
Proof.
  unfold MASTER_RE_finditer. destruct s as [|c s]; [reflexivity|].
  cbn [MASTER_RE_finditer_from].
  destruct (MASTER_RE_match (String c s)) as [[[kind v] rest]|] eqn:Hm.
  - f_equal. apply MASTER_RE_match_suffix in Hm as (pre & Hne & Hs).
    destruct pre as [|a pre]; [congruence|].
    simpl in Hs. inversion Hs; subst.
    rewrite length_append.
    replace (String.length pre + String.length rest - String.length rest)
      with (String.length pre) by lia.
    apply MASTER_RE_finditer_from_skip.
  - now elim (MASTER_RE_match_total c s).
Qed.

Lemma tokenize_step_app acc mo :
  tokenize_step acc mo = (acc ++ tokenize_step [] mo)%list.
Proof.
  destruct mo as [kind value]. unfold tokenize_step.
  destruct (kind =? "NUMBER")%string; [reflexivity|].
  destruct (kind =? "ID")%string; [reflexivity|].
  destruct (kind =? "SKIP")%string; [now rewrite app_nil_r|].
  destruct (kind =? "MISMATCH")%string; reflexivity.
Qed.

Lemma fold_tokenize_step mos : forall acc,
  fold_left tokenize_step mos acc =
  (acc ++ flat_map (tokenize_step []) mos)%list.
Proof.
  induction mos as [|mo mos IH]; intros acc; cbn [fold_left flat_map].
  - now rewrite app_nil_r.
  - rewrite IH, (tokenize_step_app acc mo), <- app_assoc. reflexivity.
Qed.

(** [tokenize], one match at a time. *)
Lemma tokenize_eq s :
  tokenize s =
  match MASTER_RE_match s with
  | Some (kind, v, rest) => (tokenize_step [] (kind, v) ++ tokenize rest)%list
  | None => []
  end.
Proof.
  unfold tokenize. rewrite MASTER_RE_finditer_eq.
  destruct (MASTER_RE_match s) as [[[kind v] rest]|]; [|reflexivity].
  rewrite !fold_tokenize_step. reflexivity.
Qed.

(** ** Identifiers in the three recognisers *)

(** X7. The strings [simulate_dfa] accepts are the texts that the parser's
    lexer turns into the single token [("ID", text)]; each of them parses to
    the leaf of that identifier, and [tokenize] makes of it one token, a
    KEYWORD or an ID. *)
Theorem simulate_dfa_accepts_ID_tokens :
  forall s,
    (simulate_dfa s = true <-> Lexer_tokens s = [("ID", s)]) /\
    (simulate_dfa s = true -> parse_expression s = Ok (Leaf "ID" s)) /\
    (simulate_dfa s = true ->
     tokenize s =
     [if existsb (String.eqb s) KEYWORDS then ("KEYWORD", s) else ("ID", s)]).
Proof.
  intros s.
  assert (Hfwd : simulate_dfa s = true -> Lexer_tokens s = [("ID", s)]).
  { rewrite simulate_dfa_ident_text. intros H.
    destruct s as [|c tl]; [discriminate|].
    pose proof H as H'. rewrite is_ident_text_cons in H'.
    apply andb_prop in H' as [Hc Htl].
    rewrite Lexer_tokens_eq,
      (TOKEN_RE_match_nonspace _ _ (ident_start_not_space _ Hc)).
    unfold re_alternatives.
    rewrite (re_number_not_digit _ _ (ident_start_not_digit _ Hc)).
    cbn [re_ident]. rewrite Hc, (span_whole _ _ Htl).
    rewrite Lexer_tokens_nil. reflexivity. }
  split; [split; [exact Hfwd|] | split].
  - intros H. rewrite simulate_dfa_ident_text.
    pose proof (Lexer_tokens_ok s) as Hok. rewrite H in Hok.
    cbn [forallb token_ok] in Hok. rewrite andb_true_r in Hok.
    cbn in Hok. rewrite orb_false_r in Hok. exact Hok.
  - intros H. rewrite parse_expression_parse_tokens, (Hfwd H). reflexivity.
  - rewrite simulate_dfa_ident_text. intros H.
    destruct s as [|c tl]; [discriminate|].
    pose proof H as H'. rewrite is_ident_text_cons in H'.
    apply andb_prop in H' as [Hc Htl].
    rewrite tokenize_eq.
    unfold MASTER_RE_match, TOKEN_SPEC. cbn [first_alternative].
    rewrite (re_number_not_digit _ _ (ident_start_not_digit _ Hc)).
    cbn [re_ident]. rewrite Hc, (span_whole _ _ Htl). reflexivity.
Qed.

Lemma simulate_dfa_accepts_ID_tokens_witness :
  parse_expression "x_1" = Ok (Leaf "ID" "x_1").
Proof.
  apply (proj1 (proj2 (simulate_dfa_accepts_ID_tokens "x_1"))). reflexivity.
Defined.

(** ** The texts of the tokens *)

Lemma string_forallb_impl (p q : ascii -> bool) s :
  (forall c, p c = true -> q c = true) ->
  string_forallb p s = true -> string_forallb q s = true.
Proof.
  intros Hpq. induction s as [|c s IH]; simpl; auto.
  intros H. apply andb_prop in H as [Hc Hs]. now rewrite (Hpq _ Hc), IH.
Qed.

Lemma string_forallb_app p s t :
  string_forallb p (s ++ t) = string_forallb p s && string_forallb p t.
Proof.
  induction s as [|c s IH]; simpl; auto. now rewrite IH, andb_assoc.
Qed.

Lemma string_filter_app p s t :
  string_filter p (s ++ t) = string_filter p s ++ string_filter p t.
Proof.
  induction s as [|c s IH]; simpl; auto. destruct (p c); simpl; now rewrite IH.
Qed.

Lemma string_filter_all p s :
  string_forallb p s = true -> string_filter p s = s.
Proof.
  induction s as [|c s IH]; simpl; auto.
  intros H. apply andb_prop in H as [Hc Hs]. now rewrite Hc, IH.
Qed.

Lemma string_filter_none p s :
  string_forallb p s = true -> string_filter (fun c => negb (p c)) s = "".
Proof.
  induction s as [|c s IH]; simpl; auto.
  intros H. apply andb_prop in H as [Hc Hs]. rewrite Hc. simpl. auto.
Qed.

Lemma token_texts_app a b :
  token_texts (a ++ b) = token_texts a ++ token_texts b.
Proof.
  unfold token_texts. induction a as [|tok a IH]; simpl; auto.
  now rewrite IH, append_assoc.
Qed.

Lemma re_number_chars s v rest :
  re_number s = Some (v, rest) ->
  string_forallb (fun c => is_digit c || (c =? ".")%char) v = true.
Proof.
  unfold re_number. intros H.
  pose proof (span_prefix_all is_digit s) as Hall.
  destruct (span is_digit s) as [int r]; cbn [fst] in Hall.
  destruct int as [|d int]; [discriminate|].
  assert (Hint : string_forallb (fun c => is_digit c || (c =? ".")%char)
                   (String d int) = true).
  { revert Hall. apply string_forallb_impl. intros c ->. reflexivity. }
  destruct r as [|c r1]; [injection H as <- <-; exact Hint|].
  destruct (c =? ".")%char; [|injection H as <- <-; exact Hint].
  pose proof (span_prefix_all is_digit r1) as Hall'.
  destruct (span is_digit r1) as [frac r2]; cbn [fst] in Hall'.
  destruct frac as [|f frac]; [injection H as <- <-; exact Hint|].
  injection H as <- <-.
  change (string_forallb (fun c => is_digit c || (c =? ".")%char)
            (String d int ++ String "."%char (String f frac)) = true).
  rewrite string_forallb_app, Hint.
  change (string_forallb (fun c => is_digit c || (c =? ".")%char)
            (String f frac) = true).
  revert Hall'. apply string_forallb_impl. intros a ->. reflexivity.
Qed.

Lemma re_ident_chars s v rest :
  re_ident s = Some (v, rest) -> string_forallb is_ident_char v = true.
Proof.
  destruct s as [|c s]; cbn [re_ident]; [discriminate|].
  destruct (is_ident_start c) eqn:Hc; [|discriminate].
  pose proof (span_prefix_all is_ident_char s) as Hall.
  destruct (span is_ident_char s) as [tl r]; cbn [fst] in Hall.
  intros H. injection H as <- <-. cbn [string_forallb].
  unfold is_ident_char at 1. now rewrite Hc, Hall.
Qed.

Lemma number_char_not_blank c :
  is_digit c || (c =? ".")%char = true -> negb (is_blank c) = true.
Proof. ascii_cases c. Qed.

Lemma ident_char_not_blank c :
  is_ident_char c = true -> negb (is_blank c) = true.
Proof. ascii_cases c. Qed.

Lemma blank_is_space c : is_blank c = true -> is_space c = true.
Proof. ascii_cases c. Qed.

Lemma tokenize_step_ID v :
  tokenize_step [] ("ID", v) =
  [if is_keyword v then ("KEYWORD", v) else ("ID", v)].
Proof. reflexivity. Qed.

Lemma master_match_texts s kind v rest :
  master_match s kind v rest ->
  token_texts (tokenize_step [] (kind, v)) =
  string_filter (fun c => negb (is_blank c)) v.
Proof.
  intros [v0 r0 H|v0 r0 _ H|k v0 r0 Hin _|v0 r0 _ Hall _|c r0 _ _ _ Hb _].
  - apply re_number_chars in H.
    rewrite string_filter_all;
      [|revert H; apply string_forallb_impl, number_char_not_blank].
    unfold token_texts. simpl. apply append_nil_r.
  - apply re_ident_chars in H.
    rewrite string_filter_all;
      [|revert H; apply string_forallb_impl, ident_char_not_blank].
    rewrite tokenize_step_ID. unfold token_texts.
    destruct (is_keyword v0); simpl; apply append_nil_r.
  - simpl in Hin.
    repeat (destruct Hin as [Hin|Hin]; [inversion Hin; reflexivity|]).
    elim Hin.
  - now rewrite (string_filter_none _ _ Hall).
  - simpl. now rewrite Hb.
Qed.

(** X11. [tokenize] loses nothing but blanks: the texts of its tokens, put
    one after the other, are the code without its spaces, tabs and line
    feeds. *)
Theorem tokenize_keeps_all_but_blanks :
  forall code,
    token_texts (tokenize code) =
    string_filter (fun c => negb (is_blank c)) code.
Proof.
  intros code. induction code as [s IH] using string_length_ind.
  rewrite tokenize_eq.
  destruct (MASTER_RE_match s) as [[[kind v] rest]|] eqn:Hm.
  - apply MASTER_RE_match_spec in Hm.
    pose proof (master_match_suffix _ _ _ _ Hm) as [Hne Hs].
    rewrite token_texts_app, (master_match_texts _ _ _ _ Hm), IH.
    + rewrite <- string_filter_app. now rewrite <- Hs.
    + apply proper_suffix_length. exists v. auto.
  - destruct s as [|c s]; [reflexivity|].
    now elim (MASTER_RE_match_total c s).
Qed.

Lemma master_match_ok s kind v rest :
  master_match s kind v rest ->
  forallb tokenize_token_ok (tokenize_step [] (kind, v)) = true.
Proof.
  intros [v0 r0 H|v0 r0 _ H|k v0 r0 Hin _|v0 r0 _ _ _|c r0 _ Hd Hi Hb Ho].
  - apply re_number_text in H. cbn [tokenize_step String.eqb Ascii.eqb Bool.eqb app forallb tokenize_token_ok].
    now rewrite H.
  - apply re_ident_text in H. rewrite tokenize_step_ID.
    destruct (is_keyword v0) eqn:Hk; cbn [forallb tokenize_token_ok];
      rewrite H, Hk; reflexivity.
  - simpl in Hin.
    repeat (destruct Hin as [Hin|Hin]; [inversion Hin; reflexivity|]).
    elim Hin.
  - reflexivity.
  - cbn [tokenize_step String.eqb Ascii.eqb Bool.eqb app forallb
         tokenize_token_ok string_forallb].
    rewrite Hd, Hi, Hb, Ho. reflexivity.
Qed.

(** X12. Every token of [tokenize] is a NUMBER with the text of a number, a
    KEYWORD or an ID with the text of an identifier (a KEYWORD when the text
    is one of [KEYWORDS], an ID otherwise), an operator or punctuation kind
    with one of its fixed texts, or an ERROR of one character that starts no
    other token.  No token has the kind SKIP or MISMATCH. *)
Theorem tokenize_tokens_shape :
  forall code, forallb tokenize_token_ok (tokenize code) = true.
Proof.
  intros code. induction code as [s IH] using string_length_ind.
  rewrite tokenize_eq.
  destruct (MASTER_RE_match s) as [[[kind v] rest]|] eqn:Hm; [|reflexivity].
  apply MASTER_RE_match_spec in Hm.
  pose proof (master_match_suffix _ _ _ _ Hm) as [Hne Hs].
  rewrite forallb_app, (master_match_ok _ _ _ _ Hm). apply IH.
  apply proper_suffix_length. exists v. auto.
Qed.

(** ** [tokenize] and the lexer of the parser *)

Lemma match_tokens_other c :
  match_tokens (None, None, Some (String c "")) =
  if is_operator c then [(String c "", String c "")] else [].
Proof.
  unfold match_tokens, Lexer_step. cbn [truthy].
  rewrite str_in_single_operator. destruct (is_operator c); reflexivity.
Qed.

Lemma Lexer_tokens_other c s :
  is_digit c = false -> is_ident_start c = false ->
  Lexer_tokens (String c s) =
  ((if is_operator c then [(String c "", String c "")] else []) ++
   Lexer_tokens s)%list.
Proof.
  intros Hd Hi. destruct (is_space c) eqn:Hs.
  - now rewrite (Lexer_tokens_space _ _ Hs), (space_not_operator _ Hs).
  - rewrite Lexer_tokens_eq, (TOKEN_RE_match_nonspace _ _ Hs).
    unfold re_alternatives. rewrite (re_number_not_digit _ _ Hd).
    cbn [re_ident re_any]. rewrite Hi, (nonspace_dot _ Hs).
    now rewrite match_tokens_other.
Qed.

Lemma digit_not_space c : is_digit c = true -> is_space c = false.
Proof. ascii_cases c. Qed.

Lemma Lexer_tokens_number s v rest :
  re_number s = Some (v, rest) ->
  Lexer_tokens s = ("NUMBER", v) :: Lexer_tokens rest.
Proof.
  intros H. destruct s as [|c s]; [discriminate H|].
  destruct (is_digit c) eqn:Hd;
    [|now rewrite (re_number_not_digit _ _ Hd) in H].
  rewrite Lexer_tokens_eq, (TOKEN_RE_match_nonspace _ _ (digit_not_space _ Hd)).
  unfold re_alternatives. rewrite H.
  apply re_number_suffix in H as [Hne _].
  destruct v; [congruence | reflexivity].
Qed.

Lemma Lexer_tokens_ident s v rest :
  re_number s = None -> re_ident s = Some (v, rest) ->
  Lexer_tokens s = ("ID", v) :: Lexer_tokens rest.
Proof.
  intros Hn H. destruct s as [|c s]; [discriminate H|].
  destruct (is_ident_start c) eqn:Hi;
    [|cbn [re_ident] in H; rewrite Hi in H; discriminate H].
  rewrite Lexer_tokens_eq,
    (TOKEN_RE_match_nonspace _ _ (ident_start_not_space _ Hi)).
  unfold re_alternatives. rewrite Hn, H.
  apply re_ident_suffix in H as [Hne _].
  destruct v; [congruence | reflexivity].
Qed.

Lemma blank_all_space v : string_forallb is_blank v = true -> all_space v = true.
Proof. apply string_forallb_impl, blank_is_space. Qed.

Lemma master_match_Lexer s kind v rest :
  master_match s kind v rest ->
  Lexer_tokens s =
  (flat_map parser_tokens_of (tokenize_step [] (kind, v)) ++
   Lexer_tokens rest)%list.
Proof.
  intros [v0 r0 H|v0 r0 Hn H|k v0 r0 Hin ->|v0 r0 _ Hall ->|c r0 -> Hd Hi _ Ho].
  - now apply Lexer_tokens_number.
  - rewrite tokenize_step_ID, (Lexer_tokens_ident _ _ _ Hn H).
    destruct (is_keyword v0); reflexivity.
  - simpl in Hin.
    repeat (destruct Hin as [Hin|Hin];
            [inversion Hin; subst; cbn [append];
             rewrite !Lexer_tokens_other by reflexivity; reflexivity|]).
    elim Hin.
  - now rewrite (Lexer_tokens_spaces _ _ (blank_all_space _ Hall)).
  - now rewrite (Lexer_tokens_other _ _ Hd Hi), Ho.
Qed.

(** X13. The two lexers agree: the token sequence of the parser's lexer is
    that of [tokenize] with keywords read as identifiers, the four
    arithmetic operators and the parentheses under their own names, and
    every other token left out.  So [parse_expression] gives on a text what
    the parser gives on the tokens of [tokenize] read in this way. *)
Theorem tokenize_agrees_with_Lexer :
  forall text,
    Lexer_tokens text = flat_map parser_tokens_of (tokenize text) /\
    parse_expression text =
    parse_tokens (flat_map parser_tokens_of (tokenize text)).
Proof.
  assert (H : forall text,
             Lexer_tokens text = flat_map parser_tokens_of (tokenize text)).
  { intros text. induction text as [s IH] using string_length_ind.
    rewrite tokenize_eq.
    destruct (MASTER_RE_match s) as [[[kind v] rest]|] eqn:Hm.
    - apply MASTER_RE_match_spec in Hm.
      pose proof (master_match_suffix _ _ _ _ Hm) as [Hne Hs].
      rewrite flat_map_app, (master_match_Lexer _ _ _ _ Hm), IH; auto.
      apply proper_suffix_length. exists v. auto.
    - destruct s as [|c s]; [reflexivity|].
      now elim (MASTER_RE_match_total c s). }
  intros text. split; [apply H|].
  rewrite parse_expression_parse_tokens. now rewrite H.
Qed.

(** * Round trips *)

Lemma is_number_text_inv v :
  is_number_text v = true -> re_number v = Some (v, "").
Proof.
  unfold is_number_text. destruct (re_number v) as [[x r]|] eqn:H; [|discriminate].
  destruct r; [|discriminate]. intros _.
  apply re_number_suffix in H as [_ H]. rewrite append_nil_r in H. now subst.
Qed.

Lemma is_ident_text_inv v :
  is_ident_text v = true -> re_ident v = Some (v, "") /\ re_number v = None.
Proof.
  intros H. destruct v as [|c v]; [discriminate H|].
  pose proof H as H'. rewrite is_ident_text_cons in H'.
  apply andb_prop in H' as [Hc _]. split.
  - unfold is_ident_text in H.
    destruct (re_ident (String c v)) as [[x r]|] eqn:Hr; [|discriminate].
    destruct r; [|discriminate].
    apply re_ident_suffix in Hr as [_ Hr]. rewrite append_nil_r in Hr.
    now rewrite <- Hr.
  - apply re_number_not_digit. now apply ident_start_not_digit.
Qed.

(** The text of a well-formed token is lexed to that token alone. *)
Lemma Lexer_tokens_single tok :
  token_ok tok = true -> Lexer_tokens (snd tok) = [tok].
Proof.
  destruct tok as [kind text]. unfold token_ok. cbn [snd]. intros H.
  apply orb_prop in H as [H|H]; [apply orb_prop in H as [H|H]|];
    apply andb_prop in H as [Hk Ht].
  - apply String.eqb_eq in Hk. subst kind.
    rewrite (Lexer_tokens_number _ _ _ (is_number_text_inv _ Ht)).
    reflexivity.
  - apply String.eqb_eq in Hk. subst kind.
    apply is_ident_text_inv in Ht as [Hi Hn].
    rewrite (Lexer_tokens_ident _ _ _ Hn Hi). reflexivity.
  - apply String.eqb_eq in Ht. subst text.
    unfold kind_in in Hk. cbn [existsb] in Hk.
    repeat (apply orb_prop in Hk as [Hk|Hk];
            [apply String.eqb_eq in Hk; subst kind; reflexivity|]).
    discriminate Hk.
Qed.

Lemma Lexer_tokens_text_of_tokens toks :
  forallb token_ok toks = true ->
  Lexer_tokens (text_of_tokens toks) = toks.
Proof.
  induction toks as [|tok toks IH]; intros H; [reflexivity|].
  cbn [forallb] in H. apply andb_prop in H as [Htok Htoks].
  cbn [text_of_tokens fold_right].
  rewrite (Lexer_tokens_split_at_space (snd tok) " ");
    [|reflexivity | discriminate].
  fold (text_of_tokens toks).
  rewrite (Lexer_tokens_single _ Htok), (IH Htoks). reflexivity.
Qed.

(** X14. Lexing is the inverse of writing tokens down: for every list of
    well-formed tokens (numbers, identifiers, operators, parentheses), the
    lexer built from their texts, written with a space after each, holds
    exactly that list, with the cursor at its start. *)
Theorem lexer_round_trip :
  forall toks,
    forallb token_ok toks = true ->
    Lexer_tokens (text_of_tokens toks) = toks /\
    Lexer_init (text_of_tokens toks) = Ok {| tokens := toks; pos := 0 |}.
Proof.
  intros toks H. split; [now apply Lexer_tokens_text_of_tokens|].
  rewrite Lexer_init_tokens. now rewrite (Lexer_tokens_text_of_tokens _ H).
Qed.

Lemma lexer_round_trip_witness :
  let toks := [("(", "("); ("ID", "x1"); ("*", "*"); ("NUMBER", "2.5");
               (")", ")")] in
  Lexer_tokens (text_of_tokens toks) = toks /\
  Lexer_init (text_of_tokens toks) = Ok {| tokens := toks; pos := 0 |}.
Proof.
  intros toks. apply lexer_round_trip. reflexivity.
Defined.

(** ** From a tree to tokens and back *)









Lemma no_operator_close rest : no_operator_next (op_token ")" :: rest) = true.
Proof. reflexivity. Qed.





(** * Bounds *)

Lemma match_tokens_length mo : List.length (match_tokens mo) <= 1.
Proof.
  destruct mo as [[num ident] other]. unfold match_tokens, Lexer_step.
  destruct (truthy num); [simpl; lia|].
  destruct (truthy ident); [simpl; lia|].
  destruct other as [o|]; [|simpl; lia].
  destruct (str_in o "+-*/()"); simpl; lia.
Qed.

Lemma tokenize_step_length mo : List.length (tokenize_step [] mo) <= 1.
Proof.
  destruct mo as [kind value]. unfold tokenize_step.
  destruct (kind =? "NUMBER")%string; [simpl; lia|].
  destruct (kind =? "ID")%string; [simpl; lia|].
  destruct (kind =? "SKIP")%string; [simpl; lia|].
  destruct (kind =? "MISMATCH")%string; simpl; lia.
Qed.

(** X16. Neither lexer makes more tokens than the text has characters. *)
Theorem token_count_bounded :
  forall text,
    List.length (Lexer_tokens text) <= String.length text /\
    List.length (tokenize text) <= String.length text.
Proof.
  intros text. induction text as [s IH] using string_length_ind. split.
  - rewrite Lexer_tokens_eq.
    destruct (TOKEN_RE_match s) as [[g rest]|] eqn:Hm.
    + apply TOKEN_RE_match_suffix, proper_suffix_length in Hm.
      rewrite length_app. pose proof (match_tokens_length g).
      destruct (IH rest Hm) as [Hrest _]. lia.
    + destruct s as [|c s]; [simpl; lia|].
      destruct (IH s) as [Hs _]; simpl; lia.
  - rewrite tokenize_eq.
    destruct (MASTER_RE_match s) as [[[kind v] rest]|] eqn:Hm; [|simpl; lia].
    apply MASTER_RE_match_suffix, proper_suffix_length in Hm.
    rewrite length_app. pose proof (tokenize_step_length (kind, v)).
    destruct (IH rest Hm) as [_ Hrest]. lia.
Qed.

(** * The recursion limit *)

Lemma limited_refl {A : Type} (m : result A) : limited m m.
Proof. now right. Qed.

Lemma limited_bind {A B : Type} (m m' : result A) (k k' : A -> result B) :
  limited m m' ->
  (forall a, m' = Ok a -> limited (k a) (k' a)) ->
  limited (bind m k) (bind m' k').
Proof.
  intros [->| ->] Hk; [now left|].
  destruct m' as [a|e|]; cbn [bind]; [now apply Hk | now right | now right].
Qed.

Lemma limited_enter {A : Type} frames (body : nat -> result A) m :
  (forall frames', limited (body frames') m) -> limited (enter frames body) m.
Proof. intros H. destruct frames; [now left | apply H]. Qed.

Lemma limited_peek frames lex : limited (peek_call frames lex) (Ok (peek lex)).
Proof. unfold peek_call. apply limited_enter. intros _. apply limited_refl. Qed.

Lemma limited_next frames lex : limited (next_call frames lex) (Ok (next lex)).
Proof.
  unfold next_call. apply limited_enter. intros fr.
  destruct (limited_peek fr lex) as [H|H]; rewrite H; [now left | now right].
Qed.

(** A limited peek followed by [k] against the unlimited [k (peek lex)]. *)
Lemma limited_peek_bind {B : Type} frames lex (k : token -> result B) m :
  limited (k (peek lex)) m ->
  limited (tok <- peek_call frames lex ;; k tok) m.
Proof.
  intros H. destruct (limited_peek frames lex) as [Hp|Hp]; rewrite Hp;
    [now left | exact H].
Qed.

Lemma limited_next_bind {B : Type} frames lex
      (k : token * Lexer -> result B) m :
  limited (k (next lex)) m ->
  limited (bind (next_call frames lex) k) m.
Proof.
  intros H. destruct (limited_next frames lex) as [Hp|Hp]; rewrite Hp;
    [now left | exact H].
Qed.

(** Under the limit a closure raises RecursionError or does what it does
    without the limit. *)
Lemma closure_limited fuel : forall k fl f frames lex,
  closure_lim k fl f -> limited (fl fuel frames lex) (f fuel lex).
Proof.
  induction fuel as [|fuel IH]; intros k fl f frames lex Hf.
  { destruct Hf; apply limited_refl. }
  destruct Hf;
    cbn [E E_while T T_while F E_lim E_while_lim T_lim T_while_lim F_lim].
  - apply limited_enter. intros fr. apply limited_bind.
    + apply (IH _ _ _ _ _ closure_lim_T).
    + intros [t lex1] _. apply (IH _ _ _ _ _ (closure_lim_E_while t)).
  - apply limited_peek_bind.
    destruct (kind_in (fst (peek lex)) ["+"; "-"]); [|apply limited_refl].
    apply limited_next_bind. cbn [next fst]. apply limited_bind.
    + apply (IH _ _ _ _ _ closure_lim_T).
    + intros [t lex1] _. apply (IH _ _ _ _ _ (closure_lim_E_while _)).
  - apply limited_enter. intros fr. apply limited_bind.
    + apply (IH _ _ _ _ _ closure_lim_F).
    + intros [t lex1] _. apply (IH _ _ _ _ _ (closure_lim_T_while t)).
  - apply limited_peek_bind.
    destruct (kind_in (fst (peek lex)) ["*"; "/"]); [|apply limited_refl].
    apply limited_next_bind. cbn [next fst]. apply limited_bind.
    + apply (IH _ _ _ _ _ closure_lim_F).
    + intros [t lex1] _. apply (IH _ _ _ _ _ (closure_lim_T_while _)).
  - apply limited_enter. intros fr. apply limited_peek_bind. cbv zeta.
    destruct (fst (peek lex) =? "(")%string.
    + apply limited_next_bind. cbn [next]. apply limited_bind.
      * apply (IH _ _ _ _ _ closure_lim_E).
      * intros [t lex1] _. apply limited_peek_bind.
        destruct (negb (fst (peek lex1) =? ")")%string); [apply limited_refl|].
        apply limited_next_bind. apply limited_refl.
    + destruct (fst (peek lex) =? "NUMBER")%string;
        [apply limited_next_bind; apply limited_refl|].
      destruct (fst (peek lex) =? "ID")%string;
        [apply limited_next_bind; apply limited_refl | apply limited_refl].
Qed.

Lemma enter_ok {A : Type} frames (body : nat -> result A) :
  1 <= frames -> enter frames body = body (frames - 1).
Proof.
  intros H. destruct frames as [|fr]; [lia|]. cbn [enter].
  now rewrite Nat.sub_succ, Nat.sub_0_r.
Qed.

Lemma peek_call_ok frames lex : 1 <= frames -> peek_call frames lex = Ok (peek lex).
Proof. intros H. unfold peek_call. now rewrite enter_ok. Qed.

Lemma next_call_ok frames lex : 2 <= frames -> next_call frames lex = Ok (next lex).
Proof.
  intros H. unfold next_call. rewrite enter_ok by lia.
  rewrite peek_call_ok by lia. reflexivity.
Qed.

(** With three frames for each token that remains, and [k] more, no call
    goes beyond the limit. *)
Lemma closure_enough_frames fuel : forall k fl f frames lex,
  closure_lim k fl f -> 3 * remaining lex + k <= frames ->
  fl fuel frames lex = f fuel lex.
Proof.
  induction fuel as [|fuel IH]; intros k fl f frames lex Hf Hle.
  { destruct Hf; reflexivity. }
  destruct Hf;
    cbn [E E_while T T_while F E_lim E_while_lim T_lim T_while_lim F_lim].
  - rewrite enter_ok by lia.
    rewrite (IH _ _ _ _ _ closure_lim_T) by lia.
    apply bind_ext. intros [t lex1] Ht.
    pose proof (cursor_closure fuel _ _ lex closure_T) as Hc.
    rewrite Ht in Hc. apply cursor_remaining in Hc.
    apply (IH _ _ _ _ _ (closure_lim_E_while t)). lia.
  - rewrite peek_call_ok by lia. cbn [bind].
    destruct (kind_in (fst (peek lex)) ["+"; "-"]) eqn:Hk; [|reflexivity].
    apply kind_in_range in Hk; [|reflexivity]. apply remaining_next in Hk.
    rewrite next_call_ok by lia. cbn [bind next snd fst] in Hk |- *.
    rewrite (IH _ _ _ _ _ closure_lim_T) by lia.
    apply bind_ext. intros [t lex1] Ht.
    pose proof (cursor_closure fuel _ _
                  {| tokens := tokens lex; pos := pos lex + 1 |} closure_T) as Hc.
    rewrite Ht in Hc. apply cursor_remaining in Hc.
    apply (IH _ _ _ _ _ (closure_lim_E_while _)). lia.
  - rewrite enter_ok by lia.
    rewrite (IH _ _ _ _ _ closure_lim_F) by lia.
    apply bind_ext. intros [t lex1] Ht.
    pose proof (cursor_closure fuel _ _ lex closure_F) as Hc.
    rewrite Ht in Hc. apply cursor_remaining in Hc.
    apply (IH _ _ _ _ _ (closure_lim_T_while t)). lia.
  - rewrite peek_call_ok by lia. cbn [bind].
    destruct (kind_in (fst (peek lex)) ["*"; "/"]) eqn:Hk; [|reflexivity].
    apply kind_in_range in Hk; [|reflexivity]. apply remaining_next in Hk.
    rewrite next_call_ok by lia. cbn [bind next snd fst] in Hk |- *.
    rewrite (IH _ _ _ _ _ closure_lim_F) by lia.
    apply bind_ext. intros [t lex1] Ht.
    pose proof (cursor_closure fuel _ _
                  {| tokens := tokens lex; pos := pos lex + 1 |} closure_F) as Hc.
    rewrite Ht in Hc. apply cursor_remaining in Hc.
    apply (IH _ _ _ _ _ (closure_lim_T_while _)). lia.
  - rewrite enter_ok by lia. rewrite peek_call_ok by lia. cbn [bind]. cbv zeta.
    destruct (fst (peek lex) =? "(")%string eqn:Hk.
    + assert (Hr : pos lex < List.length (tokens lex)).
      { apply peek_in_range. apply String.eqb_eq in Hk. rewrite Hk. discriminate. }
      apply remaining_next in Hr.
      rewrite next_call_ok by lia. cbn [bind next snd] in Hr |- *.
      rewrite (IH _ _ _ _ _ closure_lim_E) by lia.
      apply bind_ext. intros [t lex1] Ht.
      rewrite peek_call_ok by lia. cbn [bind].
      destruct (negb (fst (peek lex1) =? ")")%string); [reflexivity|].
      rewrite next_call_ok by lia. reflexivity.
    + destruct (fst (peek lex) =? "NUMBER")%string;
        [rewrite next_call_ok by lia; reflexivity|].
      destruct (fst (peek lex) =? "ID")%string;
        [rewrite next_call_ok by lia; reflexivity | reflexivity].
Qed.

(** [parse_expression] under the limit. *)
Lemma parse_expression_limited frames text :
  limited (parse_expression_lim frames text) (parse_expression text).
Proof.
  unfold parse_expression_lim, parse_expression.
  apply limited_enter. intros fr. apply limited_bind.
  - apply limited_enter. intros _. apply limited_refl.
  - intros lex _. apply limited_bind.
    + apply (closure_limited _ _ _ _ _ _ closure_lim_E).
    + intros [t lex1] _. apply limited_peek_bind. apply limited_refl.
Qed.

Lemma parse_tokens_limited frames toks :
  limited (parse_tokens_lim frames toks) (parse_tokens toks).
Proof.
  unfold parse_tokens_lim, parse_tokens, parseE. cbv zeta. apply limited_bind.
  - apply (closure_limited _ _ _ _ _ _ closure_lim_E).
  - intros [t lex1] _. apply limited_peek_bind. apply limited_refl.
Qed.

Lemma parse_expression_enough_frames frames text :
  3 * List.length (Lexer_tokens text) + 6 <= frames ->
  parse_expression_lim frames text = parse_expression text.
Proof.
  intros H. unfold parse_expression_lim, parse_expression.
  rewrite enter_ok by lia. rewrite enter_ok by lia.
  rewrite Lexer_init_tokens. cbn [bind].
  rewrite (closure_enough_frames _ _ _ _ _ _ closure_lim_E);
    [|unfold remaining; cbn [tokens pos]; lia].
  apply bind_ext. intros [t lex1] _. now rewrite peek_call_ok by lia.
Qed.

Lemma parse_tokens_enough_frames frames toks :
  3 * List.length toks + 5 <= frames ->
  parse_tokens_lim frames toks = parse_tokens toks.
Proof.
  intros H. unfold parse_tokens_lim, parse_tokens, parseE. cbv zeta.
  rewrite (closure_enough_frames _ _ _ _ _ _ closure_lim_E);
    [|unfold remaining; cbn [tokens pos]; lia].
  apply bind_ext. intros [t lex1] _. now rewrite peek_call_ok by lia.
Qed.

(** * Lexeme boundaries *)

Lemma append_cancel_r s : forall a b, a ++ s = b ++ s -> a = b.
Proof.
  assert (Hlen : forall c a, String c (a ++ s) <> s).
  { intros c a H. apply (f_equal String.length) in H.
    cbn [String.length] in H. rewrite length_append in H. lia. }
  induction a as [|x a IH]; intros [|y b] H; cbn [append] in H.
  - reflexivity.
  - symmetry in H. now apply Hlen in H.
  - now apply Hlen in H.
  - inversion H. f_equal. now apply IH.
Qed.

Lemma span_rest_head p s :
  match snd (span p s) with
  | String c _ => p c = false
  | EmptyString => True
  end.
Proof.
  induction s as [|c s IH]; cbn [span]; [exact I|].
  destruct (p c) eqn:Hc; [|exact Hc].
  destruct (span p s) as [x r]. exact IH.
Qed.

Lemma head_append (P : ascii -> Prop) ra b :
  match ra ++ b with String c _ => P c | EmptyString => True end ->
  match ra with String c _ => P c | EmptyString => True end.
Proof. destruct ra; simpl; auto. Qed.

(** A span that ends inside [x ++ ra] ends there without what follows. *)
Lemma span_truncate p x ra b :
  span p (x ++ ra ++ b) = (x, ra ++ b) -> span p (x ++ ra) = (x, ra).
Proof.
  intros H. apply span_all.
  - pose proof (span_prefix_all p (x ++ ra ++ b)) as Hx. now rewrite H in Hx.
  - pose proof (span_rest_head p (x ++ ra ++ b)) as Hr. rewrite H in Hr.
    cbn [snd] in Hr. now apply head_append in Hr.
Qed.

Lemma span_empty_truncate p ra b :
  fst (span p (ra ++ b)) = "" -> span p ra = ("", ra).
Proof.
  destruct ra as [|c ra]; [reflexivity|]. cbn [append span].
  destruct (p c); [|reflexivity]. destruct (span p (ra ++ b)); discriminate.
Qed.

Lemma re_number_truncate x ra b :
  re_number (x ++ ra ++ b) = Some (x, ra ++ b) ->
  re_number (x ++ ra) = Some (x, ra).
Proof.
  unfold re_number. intros H.
  pose proof (span_split is_digit (x ++ ra ++ b)) as Hs.
  pose proof (span_prefix_all is_digit (x ++ ra ++ b)) as Hall.
  pose proof (span_rest_head is_digit (x ++ ra ++ b)) as Hhd.
  destruct (span is_digit (x ++ ra ++ b)) as [int r] eqn:Hsp.
  cbn [fst snd] in Hs, Hall, Hhd.
  destruct int as [|d int]; [discriminate H|].
  assert (Hint : Some (String d int, r) = Some (x, ra ++ b) ->
                 (fst (span is_digit (string_drop 1 r)) = "" \/
                  match r with String c _ => (c =? ".")%char = false
                          | EmptyString => True end) ->
                 match span is_digit (x ++ ra) with
                 | (EmptyString, _) => None
                 | (int0, rest) =>
                     match rest with
                     | String c rest1 =>
                         if (c =? ".")%char then
                           match span is_digit rest1 with
                           | (EmptyString, _) => Some (int0, rest)
                           | (frac, rest2) => Some (int0 ++ "." ++ frac, rest2)
                           end
                         else Some (int0, rest)
                     | EmptyString => Some (int0, rest)
                     end
                 end = Some (x, ra)).
  { intros Heq Hfrac. injection Heq as <- ->.
    rewrite (span_truncate _ _ _ _ Hsp).
    destruct ra as [|c ra1]; [reflexivity|].
    destruct (c =? ".")%char eqn:Hc; [|reflexivity].
    destruct Hfrac as [Hfrac|Hfrac]; [|cbn [append] in Hfrac; congruence].
    cbn [append string_drop] in Hfrac.
    now rewrite (span_empty_truncate _ _ _ Hfrac). }
  destruct r as [|c r1]; [apply Hint; [exact H | now right]|].
  destruct (c =? ".")%char eqn:Hc; [|apply Hint; [exact H | now right]].
  pose proof (span_split is_digit r1) as Hs1.
  pose proof (span_prefix_all is_digit r1) as Hall1.
  pose proof (span_rest_head is_digit r1) as Hhd1.
  destruct (span is_digit r1) as [frac r2] eqn:Hsp1.
  cbn [fst snd] in Hs1, Hall1, Hhd1.
  destruct frac as [|f frac];
    [apply Hint; [exact H | left; cbn [string_drop]; now rewrite Hsp1]|].
  injection H as <- ->. apply Ascii.eqb_eq in Hc. subst c. clear Hint.
  change (String d (int ++ String "."%char (String f frac)) ++ ra)
    with ((String d int ++ "." ++ String f frac) ++ ra).
  rewrite append_assoc.
  change (("." ++ String f frac) ++ ra)
    with (String "."%char (String f frac ++ ra)).
  rewrite (span_all is_digit (String d int)
             (String "."%char (String f frac ++ ra)) Hall stop_not_digit).
  rewrite Ascii.eqb_refl.
  rewrite (span_all is_digit (String f frac) ra Hall1);
    [reflexivity | now apply head_append in Hhd1].
Qed.

Lemma re_ident_truncate x ra b :
  re_ident (x ++ ra ++ b) = Some (x, ra ++ b) ->
  re_ident (x ++ ra) = Some (x, ra).
Proof.
  destruct x as [|c x]; cbn [append re_ident].
  - intros H. apply re_ident_suffix in H as [Hne _]. now elim Hne.
  - destruct (is_ident_start c); [|discriminate].
    destruct (span is_ident_char (x ++ ra ++ b)) as [tl rest] eqn:Hsp.
    intros H. injection H as -> ->.
    now rewrite (span_truncate _ _ _ _ Hsp).
Qed.

(** What a match consumes is the text before what it leaves. *)
Lemma consumed_unique c rest x :
  x <> "" -> c ++ rest = x ++ rest -> c = x /\ c <> "".
Proof.
  intros Hne H. apply append_cancel_r in H. subst. auto.
Qed.

Lemma re_alternatives_truncate c ra b mo :
  re_alternatives (c ++ ra ++ b) = Some (mo, ra ++ b) ->
  re_alternatives (c ++ ra) = Some (mo, ra).
Proof.
  intros H.
  assert (Hc : exists a c', c = String a c').
  { apply re_alternatives_suffix in H as (pre & Hne & Hs).
    apply (consumed_unique c (ra ++ b) pre Hne) in Hs as [_ Hc].
    destruct c; [congruence | eauto]. }
  destruct Hc as (a & c' & ->). revert H. unfold re_alternatives.
  destruct (re_number (String a c' ++ ra ++ b)) as [[x r]|] eqn:Hnum.
  { intros H. injection H as <- ->.
    pose proof (re_number_suffix _ _ _ Hnum) as [Hne Hs].
    apply (consumed_unique _ _ _ Hne) in Hs as [<- _].
    now rewrite (re_number_truncate _ _ _ Hnum). }
  cbn [append] in Hnum. apply re_number_None_inv in Hnum.
  cbn [append]. rewrite (re_number_not_digit _ _ Hnum).
  change (String a (c' ++ ra ++ b)) with (String a c' ++ ra ++ b).
  change (String a (c' ++ ra)) with (String a c' ++ ra).
  destruct (re_ident (String a c' ++ ra ++ b)) as [[x r]|] eqn:Hid.
  { intros H. injection H as <- ->.
    pose proof (re_ident_suffix _ _ _ Hid) as [Hne Hs].
    apply (consumed_unique _ _ _ Hne) in Hs as [<- _].
    now rewrite (re_ident_truncate _ _ _ Hid). }
  cbn [append] in Hid. apply re_ident_None_inv in Hid.
  cbn [append re_ident re_any]. rewrite Hid.
  destruct (is_dot a); [|discriminate].
  intros H. injection H as <- Hrest.
  apply (append_cancel_r (ra ++ b) c' "") in Hrest. now subst c'.
Qed.

(** The tokens of a match do not depend on what follows its rest. *)
Lemma TOKEN_RE_match_truncate c : forall ra b mo,
  TOKEN_RE_match (c ++ ra ++ b) = Some (mo, ra ++ b) ->
  Lexer_tokens (c ++ ra) = (match_tokens mo ++ Lexer_tokens ra)%list.
Proof.
  induction c as [|a c IH]; intros ra b mo H.
  - apply TOKEN_RE_match_suffix, proper_suffix_length in H.
    cbn [append] in H. lia.
  - cbn [append] in H |- *. destruct (is_space a) eqn:Ha.
    + rewrite (Lexer_tokens_space _ _ Ha).
      cbn [TOKEN_RE_match] in H. rewrite Ha in H.
      destruct (TOKEN_RE_match (c ++ ra ++ b)) as [[mo' r']|] eqn:Hm.
      * injection H as -> ->. now apply (IH _ b).
      * rewrite (re_alternatives_silent _ _ (space_silent _ Ha)) in H.
        destruct (is_dot a); [|discriminate H].
        injection H as <- Hrest.
        apply (append_cancel_r (ra ++ b) c "") in Hrest. subst c.
        now rewrite (match_tokens_silent _ (space_silent _ Ha)).
    + rewrite (TOKEN_RE_match_nonspace _ _ Ha) in H.
      change (String a (c ++ ra ++ b)) with (String a c ++ ra ++ b) in H.
      apply re_alternatives_truncate in H. cbn [append] in H.
      now rewrite Lexer_tokens_eq, (TOKEN_RE_match_nonspace _ _ Ha), H.
Qed.

(** At a lexeme boundary the token sequence splits. *)
Lemma lexeme_boundary_splits u v :
  lexeme_boundary u v ->
  Lexer_tokens (u ++ v) = (Lexer_tokens u ++ Lexer_tokens v)%list.
Proof.
  induction 1 as [v|c u v mo Hm _ IH]; [reflexivity|].
  rewrite append_assoc, Lexer_tokens_eq, Hm, IH.
  rewrite (TOKEN_RE_match_truncate _ _ _ _ Hm), app_assoc. reflexivity.
Qed.
